(** * Music_Player_Local: the playback engine and its playlist store

    A shallow embedding of [MusicEngine] (src/music_server.py) and of
    [add_music_entry] (src/yt_db.py).  The engine's fields become the
    record [Engine]; the two SQLite tables of the playlist store and the
    [music] table become lists of rows kept in table order; the VLC player
    is reduced to the three things the engine drives: the loaded media,
    whether it runs, and its audio volume.  The file system and the
    lookups the engine makes by file path are an environment [Env]. *)

From stdpp Require Import base gmap strings list sorting.
From Stdlib Require Import ZArith Lia.

Open Scope Z_scope.

(* ------------------------------------------------------------------ *)
(** ** Python list primitives *)

Section PyList.
Context {A : Type}.

(** Python normalises a negative index [i] to [len + i]. *)
Definition py_norm (l : list A) (i : Z) : Z :=
  if i <? 0 then Z.of_nat (length l) + i else i.

(** [l[i]]: [None] is the [IndexError]. *)
Definition py_get (l : list A) (i : Z) : option A :=
  let j := py_norm l i in
  if (j <? 0) || (Z.of_nat (length l) <=? j) then None
  else l !! Z.to_nat j.

(** [l.pop(i)]: the removed element and the remaining list. *)
Definition py_pop (l : list A) (i : Z) : option (A * list A) :=
  let j := py_norm l i in
  if (j <? 0) || (Z.of_nat (length l) <=? j) then None
  else match l !! Z.to_nat j with
       | Some x => Some (x, take (Z.to_nat j) l ++ drop (S (Z.to_nat j)) l)
       | None => None
       end.

(** [l.insert(i, x)]: the position is clamped to [0, len]. *)
Definition py_insert (l : list A) (i : Z) (x : A) : list A :=
  let j := Z.max 0 (Z.min (py_norm l i) (Z.of_nat (length l))) in
  take (Z.to_nat j) l ++ x :: drop (Z.to_nat j) l.

(** [collections.deque(maxlen=m).append(x)]: the leftmost entries are
    discarded once the deque is full. *)
Definition deque_append_bounded (maxlen : nat) (d : list A) (x : A) : list A :=
  let d' := d ++ [x] in
  drop (length d' - maxlen) d'.

End PyList.

(* ------------------------------------------------------------------ *)
(** ** Data model *)

(** A song dictionary as the engine stores it (the fields the engine
    reads; [singer], [duration] and [genre] are carried along untouched). *)
Record Song := mkSong {
  file_location : string;
  name : string;
  title : string
}.

Inductive RepeatMode := Off | One | All.

(** The VLC media player, as far as the engine drives it. *)
Record Player := mkPlayer {
  media : option string;      (* set_media *)
  running : bool;             (* play / stop *)
  audio_volume : Z            (* audio_set_volume *)
}.

Record Engine := mkEngine {
  player : Player;
  current_song : option Song;
  queue : list Song;                          (* deque *)
  playlists : gmap string (list Song);        (* dict name -> list *)
  current_playlist : list Song;
  current_playlist_name : option string;
  playlist_index : Z;
  history : list Song;                        (* deque(maxlen=50) *)
  is_playing : bool;
  volume : Z;
  is_muted : bool;
  shuffle : bool;
  repeat : RepeatMode
}.

Definition HISTORY_MAXLEN : nat := 50.

(** What the engine sees of the outside world: the file system, the
    [os.path] helpers, and [_get_song_info] / [_search_song], which read
    the [music] table. *)
Record Env := mkEnv {
  path_exists : string -> bool;
  abspath : string -> string;
  basename : string -> string;
  splitext_root : string -> string;
  get_song_info : string -> option Song;
  search_song : string -> option Song
}.

(** The dictionaries the engine methods return. *)
Inductive ErrKind :=
  | FileNotFound
  | SongNotFound
  | PlaylistNotFound
  | PlaylistExists
  | Protected            (* 'Cannot modify/reorder/rename/delete Library' *)
  | InvalidIndex
  | InvalidIndices
  | PlaylistEmpty
  | Failed.              (* the except branch: 'Failed to ...: <exception>' *)

Inductive Response :=
  | RPlaying (s : Song)
  | REndOfPlaylist
  | RNoNextSong
  | RStopped
  | RVolume (v : Z)
  | RMuted (b : bool)
  | RPlaylistCreated
  | RPlaylistDeleted
  | RSongAdded (s : Song)
  | RSongRemoved (s : Song)
  | RPlaylistReordered
  | RPlaylistRenamed
  | RError (e : ErrKind)
  | RIndexError.         (* an uncaught IndexError *)

(** Field updates of the engine state. *)
Definition set_player (st : Engine) (p : Player) : Engine :=
  mkEngine p (current_song st) (queue st) (playlists st) (current_playlist st)
    (current_playlist_name st) (playlist_index st) (history st) (is_playing st)
    (volume st) (is_muted st) (shuffle st) (repeat st).
Definition set_current_song (st : Engine) (s : option Song) : Engine :=
  mkEngine (player st) s (queue st) (playlists st) (current_playlist st)
    (current_playlist_name st) (playlist_index st) (history st) (is_playing st)
    (volume st) (is_muted st) (shuffle st) (repeat st).
Definition set_queue (st : Engine) (q : list Song) : Engine :=
  mkEngine (player st) (current_song st) q (playlists st) (current_playlist st)
    (current_playlist_name st) (playlist_index st) (history st) (is_playing st)
    (volume st) (is_muted st) (shuffle st) (repeat st).
Definition set_playlists (st : Engine) (m : gmap string (list Song)) : Engine :=
  mkEngine (player st) (current_song st) (queue st) m (current_playlist st)
    (current_playlist_name st) (playlist_index st) (history st) (is_playing st)
    (volume st) (is_muted st) (shuffle st) (repeat st).
Definition set_current_playlist (st : Engine) (l : list Song) : Engine :=
  mkEngine (player st) (current_song st) (queue st) (playlists st) l
    (current_playlist_name st) (playlist_index st) (history st) (is_playing st)
    (volume st) (is_muted st) (shuffle st) (repeat st).
Definition set_current_playlist_name (st : Engine) (n : option string) : Engine :=
  mkEngine (player st) (current_song st) (queue st) (playlists st) (current_playlist st)
    n (playlist_index st) (history st) (is_playing st)
    (volume st) (is_muted st) (shuffle st) (repeat st).
Definition set_playlist_index (st : Engine) (i : Z) : Engine :=
  mkEngine (player st) (current_song st) (queue st) (playlists st) (current_playlist st)
    (current_playlist_name st) i (history st) (is_playing st)
    (volume st) (is_muted st) (shuffle st) (repeat st).
Definition set_history (st : Engine) (h : list Song) : Engine :=
  mkEngine (player st) (current_song st) (queue st) (playlists st) (current_playlist st)
    (current_playlist_name st) (playlist_index st) h (is_playing st)
    (volume st) (is_muted st) (shuffle st) (repeat st).
Definition set_is_playing (st : Engine) (b : bool) : Engine :=
  mkEngine (player st) (current_song st) (queue st) (playlists st) (current_playlist st)
    (current_playlist_name st) (playlist_index st) (history st) b
    (volume st) (is_muted st) (shuffle st) (repeat st).
Definition set_volume_field (st : Engine) (v : Z) : Engine :=
  mkEngine (player st) (current_song st) (queue st) (playlists st) (current_playlist st)
    (current_playlist_name st) (playlist_index st) (history st) (is_playing st)
    v (is_muted st) (shuffle st) (repeat st).
Definition set_is_muted (st : Engine) (b : bool) : Engine :=
  mkEngine (player st) (current_song st) (queue st) (playlists st) (current_playlist st)
    (current_playlist_name st) (playlist_index st) (history st) (is_playing st)
    (volume st) b (shuffle st) (repeat st).

(** VLC player calls. *)
Definition player_stop (p : Player) : Player := mkPlayer (media p) false (audio_volume p).
Definition player_play (p : Player) : Player := mkPlayer (media p) true (audio_volume p).
Definition player_set_media (p : Player) (path : string) : Player :=
  mkPlayer (Some path) (running p) (audio_volume p).
Definition audio_set_volume (p : Player) (v : Z) : Player :=
  mkPlayer (media p) (running p) v.

(* ------------------------------------------------------------------ *)
(** ** Playback (MusicEngine.play_file, stop, next, _handle_song_end,
       set_volume, toggle_mute) *)

Section Playback.
Variable env : Env.

(** [play_file(file_path)] *)
Definition play_file (st : Engine) (file_path : string) : Response * Engine :=
  if negb (path_exists env file_path) then (RError FileNotFound, st)
  else
    let p := player_play (player_set_media (player_stop (player st)) file_path) in
    let song :=
      match get_song_info env file_path with
      | Some info => info
      | None => mkSong file_path (splitext_root env (basename env file_path))
                       (basename env file_path)
      end in
    let st1 := set_current_song (set_player st p) (Some song) in
    let st2 := set_is_playing st1 true in
    let st3 := set_history st2 (deque_append_bounded HISTORY_MAXLEN (history st2) song) in
    let st4 := if negb (is_muted st3)
               then set_player st3 (audio_set_volume (player st3) (volume st3))
               else st3 in
    (RPlaying song, st4).

(** [stop()] *)
Definition stop (st : Engine) : Response * Engine :=
  let st1 := set_player st (player_stop (player st)) in
  let st2 := set_is_playing st1 false in
  let st3 := set_current_song st2 None in
  (RStopped, set_current_playlist_name st3 None).

(** Playing the song at [self.current_playlist[self.playlist_index]]. *)
Definition play_at_index (st : Engine) : Response * Engine :=
  match py_get (current_playlist st) (playlist_index st) with
  | Some s => play_file st (file_location s)
  | None => (RIndexError, st)
  end.

(** [next()] *)
Definition next (st : Engine) : Response * Engine :=
  match queue st with
  | next_song :: rest => play_file (set_queue st rest) (file_location next_song)
  | [] =>
      match current_playlist st with
      | _ :: _ =>
          let st1 := set_playlist_index st (playlist_index st + 1) in
          if Z.of_nat (length (current_playlist st1)) <=? playlist_index st1 then
            match repeat st1 with
            | All => play_at_index (set_playlist_index st1 0)
            | _ => (REndOfPlaylist, st1)
            end
          else play_at_index st1
      | [] => (RNoNextSong, st)
      end
  end.

(** [_handle_song_end()]; it returns nothing, only the state matters. *)
Definition handle_song_end (st : Engine) : Engine :=
  match repeat st with
  | One =>
      match current_song st with
      | Some s => snd (play_file st (file_location s))
      | None => st            (* never called without a current song *)
      end
  | _ =>
      match queue st with
      | next_song :: rest => snd (play_file (set_queue st rest) (file_location next_song))
      | [] =>
          match current_playlist st with
          | _ :: _ =>
              let st1 := set_playlist_index st (playlist_index st + 1) in
              if Z.of_nat (length (current_playlist st1)) <=? playlist_index st1 then
                match repeat st1 with
                | All => snd (play_at_index (set_playlist_index st1 0))
                | _ => snd (stop st1)
                end
              else snd (play_at_index st1)
          | [] => snd (stop st)
          end
      end
  end.

(** [set_volume(level)] *)
Definition set_volume (st : Engine) (level : Z) : Response * Engine :=
  let st1 := set_volume_field st (Z.max 0 (Z.min 100 level)) in
  let st2 := if negb (is_muted st1)
             then set_player st1 (audio_set_volume (player st1) (volume st1))
             else st1 in
  (RVolume (volume st2), st2).

(** [toggle_mute()] *)
Definition toggle_mute (st : Engine) : Response * Engine :=
  if is_muted st then
    let st1 := set_is_muted st false in
    let st2 := set_player st1 (audio_set_volume (player st1) (volume st1)) in
    (RMuted (is_muted st2), st2)
  else
    let st1 := set_is_muted st true in
    let st2 := set_player st1 (audio_set_volume (player st1) 0) in
    (RMuted (is_muted st2), st2).

End Playback.

(* ------------------------------------------------------------------ *)
(** ** The playlist store (tables [playlists] and [playlist_songs]) *)

Record PlRow := mkPlRow { pl_id : Z; pl_name : string }.
Record PsRow := mkPsRow { ps_playlist : Z; ps_song : Song; ps_position : Z }.

(** Rows in table order; [pl_seq] is the AUTOINCREMENT counter of
    [playlists.id]. *)
Record Db := mkDb {
  tbl_playlists : list PlRow;
  tbl_playlist_songs : list PsRow;
  pl_seq : Z
}.

(** [SELECT id FROM playlists WHERE name = ?] with [fetchone()]: the
    first row in table order. *)
Fixpoint select_playlist_id_rows (rows : list PlRow) (nm : string) : option Z :=
  match rows with
  | [] => None
  | r :: rows' => if String.eqb (pl_name r) nm then Some (pl_id r)
                  else select_playlist_id_rows rows' nm
  end.

Definition select_playlist_id (db : Db) (nm : string) : option Z :=
  select_playlist_id_rows (tbl_playlists db) nm.

Definition name_in_table (db : Db) (nm : string) : bool :=
  existsb (fun r => String.eqb (pl_name r) nm) (tbl_playlists db).

(** The rows [(playlist_id, json.dumps(song), i)] inserted by
    [for i, song in enumerate(songs)], starting at position [k]. *)
Fixpoint enum_rows (pid : Z) (k : Z) (songs : list Song) : list PsRow :=
  match songs with
  | [] => []
  | s :: songs' => mkPsRow pid s k :: enum_rows pid (k + 1) songs'
  end.

Definition set_playlist_songs (db : Db) (rows : list PsRow) : Db :=
  mkDb (tbl_playlists db) rows (pl_seq db).

(** [DELETE FROM playlist_songs WHERE playlist_id = ? AND position = ?] *)
Definition delete_song_row (pid i : Z) (rows : list PsRow) : list PsRow :=
  List.filter (fun r => negb ((ps_playlist r =? pid) && (ps_position r =? i))) rows.

(** [UPDATE playlist_songs SET position = position - 1
     WHERE playlist_id = ? AND position > ?] *)
Definition shift_song_rows (pid i : Z) (rows : list PsRow) : list PsRow :=
  map (fun r => if (ps_playlist r =? pid) && (i <? ps_position r)
                then mkPsRow (ps_playlist r) (ps_song r) (ps_position r - 1)
                else r) rows.

(** [DELETE FROM playlist_songs WHERE playlist_id = ?] *)
Definition delete_playlist_rows (pid : Z) (rows : list PsRow) : list PsRow :=
  List.filter (fun r => negb (ps_playlist r =? pid)) rows.

(** The rows of one playlist, in table order. *)
Definition rows_of (pid : Z) (rows : list PsRow) : list PsRow :=
  List.filter (fun r => ps_playlist r =? pid) rows.

(* ------------------------------------------------------------------ *)
(** ** Playlist management.

    [ok] says whether the storage statements run without raising; when
    one raises, nothing was committed, so the tables keep their old rows,
    and control goes to the method's [except] branch. *)

Definition LIBRARY : string := "Library".

(** [create_playlist(name, songs)] *)
Definition create_playlist (ok : bool) (db : Db) (st : Engine) (nm : string)
    (songs : list Song) : Response * Db * Engine :=
  match playlists st !! nm with
  | Some _ => (RError PlaylistExists, db, st)
  | None =>
      (* INSERT INTO playlists (name): the UNIQUE constraint on name *)
      if negb ok || name_in_table db nm then (RError Failed, db, st)
      else
        let pid := pl_seq db + 1 in
        let db' := mkDb (tbl_playlists db ++ [mkPlRow pid nm])
                        (tbl_playlist_songs db ++ enum_rows pid 0 songs) pid in
        (RPlaylistCreated, db', set_playlists st (<[nm := songs]> (playlists st)))
  end.

(** [delete_playlist(name)]; the [ON DELETE CASCADE] of [playlist_songs]
    is inert, since the connection never enables [PRAGMA foreign_keys]. *)
Definition delete_playlist (ok : bool) (db : Db) (st : Engine) (nm : string)
    : Response * Db * Engine :=
  if String.eqb nm LIBRARY then (RError Protected, db, st)
  else match playlists st !! nm with
  | None => (RError PlaylistNotFound, db, st)
  | Some _ =>
      if negb ok then (RError Failed, db, st)
      else
        let db' := mkDb (List.filter (fun r => negb (String.eqb (pl_name r) nm)) (tbl_playlists db))
                        (tbl_playlist_songs db) (pl_seq db) in
        let st1 := set_playlists st (delete nm (playlists st)) in
        let st2 := if bool_decide (current_playlist_name st1 = Some nm)
                   then set_playlist_index
                          (set_current_playlist_name (set_current_playlist st1 []) None) 0
                   else st1 in
        (RPlaylistDeleted, db', st2)
  end.

(** [add_to_playlist(playlist_name, song_name)] *)
Definition add_to_playlist (env : Env) (ok : bool) (db : Db) (st : Engine)
    (pname song_name : string) : Response * Db * Engine :=
  match playlists st !! pname with
  | None => (RError PlaylistNotFound, db, st)
  | Some l =>
      let song_data :=
        match search_song env song_name with
        | Some s => Some s
        | None =>
            if path_exists env song_name then
              let stem := splitext_root env (basename env song_name) in
              Some (mkSong song_name stem stem)
            else None
        end in
      match song_data with
      | None => (RError SongNotFound, db, st)
      | Some s =>
          if negb ok then (RError Failed, db, st)
          else
            let db' :=
              match select_playlist_id db pname with
              | Some pid =>
                  set_playlist_songs db
                    (tbl_playlist_songs db ++ [mkPsRow pid s (Z.of_nat (length l))])
              | None => db
              end in
            let st1 := set_playlists st (<[pname := l ++ [s]]> (playlists st)) in
            let st2 := if bool_decide (current_playlist_name st1 = Some pname)
                       then set_current_playlist st1 (current_playlist st1 ++ [s])
                       else st1 in
            (RSongAdded s, db', st2)
      end
  end.

(** [remove_from_playlist(playlist_name, index)] *)
Definition remove_from_playlist (ok : bool) (db : Db) (st : Engine)
    (pname : string) (index : Z) : Response * Db * Engine :=
  match playlists st !! pname with
  | None => (RError PlaylistNotFound, db, st)
  | Some l =>
      if String.eqb pname LIBRARY then (RError Protected, db, st)
      else if negb ((0 <=? index) && (index <? Z.of_nat (length l)))
      then (RError InvalidIndex, db, st)
      else
        match py_pop l index with
        | None => (RError Failed, db, st)      (* unreachable after the check *)
        | Some (removed_song, l') =>
            if negb ok then (RError Failed, db, st)
            else
              let db' :=
                match select_playlist_id db pname with
                | Some pid =>
                    set_playlist_songs db
                      (shift_song_rows pid index
                         (delete_song_row pid index (tbl_playlist_songs db)))
                | None => db
                end in
              let st1 := set_playlists st (<[pname := l']> (playlists st)) in
              if bool_decide (current_playlist_name st1 = Some pname) then
                match py_pop (current_playlist st1) index with
                | None => (RError Failed, db', st1)   (* IndexError, caught *)
                | Some (_, cp') =>
                    let st2 := set_current_playlist st1 cp' in
                    let st3 := if index <? playlist_index st2
                               then set_playlist_index st2 (playlist_index st2 - 1)
                               else st2 in
                    (RSongRemoved removed_song, db', st3)
                end
              else (RSongRemoved removed_song, db', st1)
        end
  end.

(** The index adjustment of [reorder_playlist]. *)
Definition reorder_index (from_index to_index i : Z) : Z :=
  if i =? from_index then to_index
  else if (from_index <? i) && (i <=? to_index) then i - 1
  else if (to_index <=? i) && (i <? from_index) then i + 1
  else i.

(** [song = l.pop(from_index); l.insert(to_index, song)] *)
Definition py_move (l : list Song) (from_index to_index : Z) : option (list Song) :=
  match py_pop l from_index with
  | Some (song, l1) => Some (py_insert l1 to_index song)
  | None => None
  end.

(** [reorder_playlist(playlist_name, from_index, to_index)]: the stored
    list is reordered in memory before the storage statements run. *)
Definition reorder_playlist (ok : bool) (db : Db) (st : Engine)
    (pname : string) (from_index to_index : Z) : Response * Db * Engine :=
  match playlists st !! pname with
  | None => (RError PlaylistNotFound, db, st)
  | Some l =>
      if String.eqb pname LIBRARY then (RError Protected, db, st)
      else if negb ((0 <=? from_index) && (from_index <? Z.of_nat (length l))
                    && (0 <=? to_index) && (to_index <? Z.of_nat (length l)))
      then (RError InvalidIndices, db, st)
      else
        match py_move l from_index to_index with
        | None => (RError Failed, db, st)      (* unreachable after the check *)
        | Some l2 =>
            (* Reorder in memory *)
            let st1 := set_playlists st (<[pname := l2]> (playlists st)) in
            if negb ok then (RError Failed, db, st1)
            else
              let db' :=
                match select_playlist_id db pname with
                | Some pid =>
                    set_playlist_songs db
                      (delete_playlist_rows pid (tbl_playlist_songs db) ++ enum_rows pid 0 l2)
                | None => db
                end in
              if bool_decide (current_playlist_name st1 = Some pname) then
                match py_move (current_playlist st1) from_index to_index with
                | None => (RError Failed, db', st1)   (* IndexError, caught *)
                | Some cp' =>
                    let st2 := set_current_playlist st1 cp' in
                    (RPlaylistReordered, db',
                     set_playlist_index st2
                       (reorder_index from_index to_index (playlist_index st2)))
                end
              else (RPlaylistReordered, db', st1)
        end
  end.

(** [rename_playlist(old_name, new_name)] *)
Definition rename_playlist (ok : bool) (db : Db) (st : Engine)
    (old_name new_name : string) : Response * Db * Engine :=
  if String.eqb old_name LIBRARY then (RError Protected, db, st)
  else match playlists st !! old_name with
  | None => (RError PlaylistNotFound, db, st)
  | Some l =>
      if bool_decide (is_Some (playlists st !! new_name)) then (RError PlaylistExists, db, st)
      (* UPDATE playlists SET name = ?: the UNIQUE constraint on name *)
      else if negb ok || name_in_table db new_name then (RError Failed, db, st)
      else
        let db' := mkDb (map (fun r => if String.eqb (pl_name r) old_name
                                       then mkPlRow (pl_id r) new_name else r)
                             (tbl_playlists db))
                        (tbl_playlist_songs db) (pl_seq db) in
        let st1 := set_playlists st (<[new_name := l]> (delete old_name (playlists st))) in
        let st2 := if bool_decide (current_playlist_name st1 = Some old_name)
                   then set_current_playlist_name st1 (Some new_name) else st1 in
        (RPlaylistRenamed, db', st2)
  end.

(** [play_playlist(name)]; [shuffle_fn] stands for [random.shuffle]. *)
Definition play_playlist (env : Env) (shuffle_fn : list Song -> list Song)
    (st : Engine) (nm : string) : Response * Engine :=
  match playlists st !! nm with
  | None => (RError PlaylistNotFound, st)
  | Some [] => (RError PlaylistEmpty, st)
  | Some l =>
      let st1 := set_playlist_index
                   (set_current_playlist_name (set_current_playlist st l) (Some nm)) 0 in
      let st2 := if shuffle st1 then set_current_playlist st1 (shuffle_fn l) else st1 in
      match py_get (current_playlist st2) 0 with
      | Some s => play_file env st2 (file_location s)
      | None => (RIndexError, st2)
      end
  end.

(* ------------------------------------------------------------------ *)
(** ** Song registration (yt_db.add_music_entry) *)

Record MusicRow := mkMusicRow {
  m_id : Z;
  m_name : string;
  m_file_location : string
}.

(** The [music] table in table order, and its AUTOINCREMENT counter. *)
Record MusicDb := mkMusicDb {
  music_rows : list MusicRow;
  music_seq : Z
}.

(** [SELECT id FROM music WHERE file_location = ? LIMIT 1] *)
Fixpoint select_music_id (rows : list MusicRow) (loc : string) : option Z :=
  match rows with
  | [] => None
  | r :: rows' => if String.eqb (m_file_location r) loc then Some (m_id r)
                  else select_music_id rows' loc
  end.

(** [add_music_entry(file_location, name=...)]: returns the row id. *)
Definition add_music_entry (env : Env) (mdb : MusicDb) (file_location0 : string)
    (nm : option string) : Z * MusicDb :=
  (* store absolute path for consistency *)
  let loc := abspath env file_location0 in
  match select_music_id (music_rows mdb) loc with
  | Some existing => (existing, mdb)
  | None =>
      let row_name := match nm with
                      | Some n => if String.eqb n "" then basename env loc else n
                      | None => basename env loc
                      end in
      let rowid := music_seq mdb + 1 in
      (rowid, mkMusicDb (music_rows mdb ++ [mkMusicRow rowid row_name loc]) rowid)
  end.

(** Number of rows of the [music] table stored under [loc]. *)
Definition count_location (mdb : MusicDb) (loc : string) : nat :=
  length (List.filter (fun r => String.eqb (m_file_location r) loc) (music_rows mdb)).

(* ------------------------------------------------------------------ *)
(** ** Transport, queue and mode controls (MusicEngine.pause, resume,
       previous, seek, add_to_queue, clear_queue, remove_from_queue,
       set_repeat, set_shuffle) *)

(** Python slicing [l[:k]] and [l[k:]]: a negative bound counts from the
    end, and the bound is clamped to [0, len]. *)
Section PySlice.
Context {A : Type}.

Definition py_slice_bound (l : list A) (k : Z) : nat :=
  Z.to_nat (if k <? 0 then Z.max 0 (Z.of_nat (length l) + k)
            else Z.min k (Z.of_nat (length l))).

Definition py_slice_to (l : list A) (k : Z) : list A := take (py_slice_bound l k) l.
Definition py_slice_from (l : list A) (k : Z) : list A := drop (py_slice_bound l k) l.

End PySlice.

Definition set_shuffle_field (st : Engine) (b : bool) : Engine :=
  mkEngine (player st) (current_song st) (queue st) (playlists st) (current_playlist st)
    (current_playlist_name st) (playlist_index st) (history st) (is_playing st)
    (volume st) (is_muted st) b (repeat st).
Definition set_repeat_field (st : Engine) (m : RepeatMode) : Engine :=
  mkEngine (player st) (current_song st) (queue st) (playlists st) (current_playlist st)
    (current_playlist_name st) (playlist_index st) (history st) (is_playing st)
    (volume st) (is_muted st) (shuffle st) m.

(** [player.pause()] on a playing player. *)
Definition player_pause (p : Player) : Player := mkPlayer (media p) false (audio_volume p).

(** The dictionaries these methods return; [CPlayed r] passes on the
    dictionary returned by [play_file]. *)
Inductive ControlResponse :=
  | CPaused
  | CAlreadyPaused
  | CResumed
  | CNothingToResume
  | CPlayed (r : Response)
  | CRestarted
  | CNoPreviousSong
  | CPosition (position : Z)
  | CNoSongPlaying
  | CAddedToQueue (s : Song)
  | CSongNotFound
  | CQueueCleared
  | CRemovedFromQueue (s : Song)
  | CInvalidQueueIndex
  | CRepeat (m : RepeatMode)
  | CInvalidRepeat
  | CShuffle (b : bool).

(** [pause()] *)
Definition pause (st : Engine) : ControlResponse * Engine :=
  if is_playing st then
    (CPaused, set_is_playing (set_player st (player_pause (player st))) false)
  else (CAlreadyPaused, st).

(** [resume()] *)
Definition resume (st : Engine) : ControlResponse * Engine :=
  if negb (is_playing st) && bool_decide (is_Some (current_song st)) then
    (CResumed, set_is_playing (set_player st (player_play (player st))) true)
  else (CNothingToResume, st).

(** [seek(position)]: the only effect is [player.set_time(position * 1000)],
    returned as the second component (the engine's fields are untouched). *)
Definition seek (st : Engine) (position : Z) : ControlResponse * option Z :=
  match current_song st with
  | Some _ => (CPosition position, Some (position * 1000))
  | None => (CNoSongPlaying, None)
  end.

(** [previous()]; the third component is the [player.set_time] call made
    through [seek(0)], if any. *)
Definition previous (env : Env) (st : Engine) : ControlResponse * Engine * option Z :=
  if bool_decide (current_playlist st <> []) && (0 <? playlist_index st) then
    let st1 := set_playlist_index st (playlist_index st - 1) in
    let '(r, st2) := play_at_index env st1 in (CPlayed r, st2, None)
  else if (2 <=? length (history st))%nat then
    (* self.history.pop(), then prev = self.history[-1] *)
    let h := removelast (history st) in
    let st1 := set_history st h in
    match last h with
    | Some prev => let '(r, st2) := play_file env st1 (file_location prev) in
                   (CPlayed r, st2, None)
    | None => (CNoPreviousSong, st1, None)     (* unreachable: len(h) >= 1 *)
    end
  else match current_song st with
  | Some _ => (CRestarted, st, snd (seek st 0))
  | None => (CNoPreviousSong, st, None)
  end.

(** [add_to_queue(song_name)] *)
Definition add_to_queue (env : Env) (st : Engine) (song_name : string)
    : ControlResponse * Engine :=
  match search_song env song_name with
  | Some s => (CAddedToQueue s, set_queue st (queue st ++ [s]))
  | None => (CSongNotFound, st)
  end.

(** [clear_queue()] *)
Definition clear_queue (st : Engine) : ControlResponse * Engine :=
  (CQueueCleared, set_queue st []).

(** [remove_from_queue(index)] *)
Definition remove_from_queue (st : Engine) (index : Z) : ControlResponse * Engine :=
  if (0 <=? index) && (index <? Z.of_nat (length (queue st))) then
    match py_pop (queue st) index with
    | Some (removed, q) => (CRemovedFromQueue removed, set_queue st q)
    | None => (CInvalidQueueIndex, st)       (* unreachable after the check *)
    end
  else (CInvalidQueueIndex, st).

(** The strings [set_repeat] accepts. *)
Definition repeat_of_string (mode : string) : option RepeatMode :=
  if String.eqb mode "off" then Some Off
  else if String.eqb mode "one" then Some One
  else if String.eqb mode "all" then Some All
  else None.

(** [set_repeat(mode)] *)
Definition set_repeat (st : Engine) (mode : string) : ControlResponse * Engine :=
  match repeat_of_string mode with
  | Some m => (CRepeat m, set_repeat_field st m)
  | None => (CInvalidRepeat, st)
  end.

(** [set_shuffle(enabled)]; [shuffle_fn] stands for [random.shuffle]
    applied to the slice [remaining]. *)
Definition set_shuffle (shuffle_fn : list Song -> list Song) (st : Engine)
    (enabled : bool) : ControlResponse * Engine :=
  let st1 := set_shuffle_field st enabled in
  if enabled && bool_decide (current_playlist st1 <> []) then
    let remaining := py_slice_from (current_playlist st1) (playlist_index st1 + 1) in
    let remaining' := shuffle_fn remaining in
    (CShuffle enabled,
     set_current_playlist st1
       (py_slice_to (current_playlist st1) (playlist_index st1 + 1) ++ remaining'))
  else (CShuffle enabled, st1).

(** The routes [/volume/up] and [/volume/down]. *)
Definition volume_up (st : Engine) : Response * Engine := set_volume st (volume st + 10).
Definition volume_down (st : Engine) : Response * Engine := set_volume st (volume st - 10).

(* ------------------------------------------------------------------ *)
(** ** Loading the saved playlists (MusicEngine._load_saved_playlists) *)

Definition position_le (r1 r2 : PsRow) : Prop := ps_position r1 <= ps_position r2.
#[global] Instance position_le_dec : RelDecision position_le.
Proof. intros r1 r2. unfold position_le. apply _. Defined.
#[global] Instance position_le_trans : Transitive position_le.
Proof. intros x y z. unfold position_le. lia. Qed.
#[global] Instance position_le_total : Total position_le.
Proof. intros x y. unfold position_le. lia. Qed.

(** [SELECT song_data FROM playlist_songs WHERE playlist_id = ?
     ORDER BY position], each [json.loads] giving back the stored song. *)
Definition select_songs (db : Db) (pid : Z) : list Song :=
  map ps_song (merge_sort position_le (rows_of pid (tbl_playlist_songs db))).

(** [for playlist_id, name in SELECT id, name FROM playlists:
       self.playlists[name] = songs] *)
Definition load_saved_playlists (db : Db) (m : gmap string (list Song))
    : gmap string (list Song) :=
  fold_left (fun acc r => <[pl_name r := select_songs db (pl_id r)]> acc)
            (tbl_playlists db) m.

(* ------------------------------------------------------------------ *)
(** ** Duplicates in the [music] table (yt_db.remove_duplicates,
       get_duplicate_count) *)

(** [MIN(id)] over the rows of one [name] group. *)
Fixpoint min_id_of_name (rows : list MusicRow) (n : string) : option Z :=
  match rows with
  | [] => None
  | r :: rows' =>
      let m := min_id_of_name rows' n in
      if String.eqb (m_name r) n
      then Some (match m with Some k => Z.min (m_id r) k | None => m_id r end)
      else m
  end.

(** [SELECT MIN(id) FROM music GROUP BY name] *)
Definition group_min_ids (rows : list MusicRow) : list Z :=
  omap (min_id_of_name rows) (remove_dups (map m_name rows)).

(** [remove_duplicates()]: [DELETE FROM music WHERE id NOT IN (...)];
    returns [cur.rowcount] and the table afterwards. *)
Definition remove_duplicates (mdb : MusicDb) : Z * MusicDb :=
  let keep := List.filter (fun r => bool_decide (m_id r ∈ group_min_ids (music_rows mdb)))
                          (music_rows mdb) in
  (Z.of_nat (length (music_rows mdb)) - Z.of_nat (length keep),
   mkMusicDb keep (music_seq mdb)).

(** [get_duplicate_count()]: [SELECT COUNT( * ) - COUNT(DISTINCT name) FROM music] *)
Definition get_duplicate_count (mdb : MusicDb) : Z :=
  Z.of_nat (length (music_rows mdb))
  - Z.of_nat (length (remove_dups (map m_name (music_rows mdb)))).

(* ------------------------------------------------------------------ *)
(** ** Invariants of the engine and of the [music] table *)

(** The bound copy: while a playlist name is bound, that playlist exists
    and [current_playlist] has as many songs as the stored list. *)
Definition bound_consistent (st : Engine) : Prop :=
  match current_playlist_name st with
  | Some n => match playlists st !! n with
              | Some l => length (current_playlist st) = length l
              | None => False
              end
  | None => True
  end.

(** [id INTEGER PRIMARY KEY AUTOINCREMENT]: ids are distinct and none
    exceeds the AUTOINCREMENT counter. *)
Definition music_ids_ok (mdb : MusicDb) : Prop :=
  NoDup (map m_id (music_rows mdb)) /\
  Forall (fun r => m_id r <= music_seq mdb) (music_rows mdb).

(** The row update of [UPDATE playlists SET name = new WHERE name = old]. *)
Definition rename_row (o nn : string) (r : PlRow) : PlRow :=
  if String.eqb (pl_name r) o then mkPlRow (pl_id r) nn else r.

(* ------------------------------------------------------------------ *)
(** ** Concrete fixtures *)

(** Every path exists; the [music] table knows no path; [abspath] and the
    name helpers are the identity. *)
Definition env0 : Env :=
  mkEnv (fun _ => true) (fun p => p) (fun p => p) (fun p => p)
        (fun _ => None) (fun _ => None).

Definition song_of (p : string) : Song := mkSong p p p.
Definition song_a : Song := song_of "a.mp3".
Definition song_b : Song := song_of "b.mp3".
Definition song_c : Song := song_of "c.mp3".

Definition player0 : Player := mkPlayer None false 75.

(** The engine right after [__init__], with the given playlists. *)
Definition engine0 (m : gmap string (list Song)) : Engine :=
  mkEngine player0 None [] m [] None 0 [] false 75 false false Off.

Definition db0 : Db := mkDb [] [] 0.

(** The engine after [play_playlist] on a stored playlist [nm = l]. *)
Definition playing_playlist (nm : string) (l : list Song) : Engine :=
  snd (play_playlist env0 (fun x => x) (engine0 (<[nm := l]> ∅)) nm).

(** A muted engine: [toggle_mute] was called once on the initial engine. *)
Definition engine_muted : Engine := snd (toggle_mute (engine0 ∅)).

(** The store after [create_playlist("P", [a, b, c])] on empty tables. *)
Definition db_playlist_P : Db :=
  let '(_, db, _) := create_playlist true db0 (engine0 ∅) "P" [song_a; song_b; song_c] in db.

(** The music library resolves every name to the song stored under it. *)
Definition env_lib : Env :=
  mkEnv (fun _ => true) (fun p => p) (fun p => p) (fun p => p)
        (fun _ => None) (fun n => Some (song_of n)).

(** The engine after [play_file("a.mp3")] then [play_file("b.mp3")]. *)
Definition engine_two_played : Engine :=
  snd (play_file env0 (snd (play_file env0 (engine0 ∅) "a.mp3")) "b.mp3").

(** A [music] table holding two rows named "x" (ids 1 and 3). *)
Definition mdb_dups : MusicDb :=
  mkMusicDb [mkMusicRow 1 "x" "/m/x1.mp3"; mkMusicRow 2 "y" "/m/y.mp3";
             mkMusicRow 3 "x" "/m/x2.mp3"] 3.

(* ================================================================== *)
(** * Properties *)

(** ** Helper lemmas *)

Lemma play_file_playlist_index env st p :
  playlist_index (snd (play_file env st p)) = playlist_index st.
Proof.
  unfold play_file. destruct (path_exists env p); simpl; [|reflexivity].
  destruct (get_song_info env p); simpl; destruct (is_muted st); reflexivity.
Qed.

Lemma play_file_not_no_next env st p : fst (play_file env st p) <> RNoNextSong.
Proof.
  unfold play_file. destruct (path_exists env p); simpl; [|discriminate].
  destruct (get_song_info env p); simpl; destruct (is_muted st); discriminate.
Qed.

Lemma play_at_index_playlist_index env st :
  playlist_index (snd (play_at_index env st)) = playlist_index st.
Proof.
  unfold play_at_index. destruct (py_get _ _); [apply play_file_playlist_index | reflexivity].
Qed.

Lemma play_at_index_not_no_next env st : fst (play_at_index env st) <> RNoNextSong.
Proof.
  unfold play_at_index. destruct (py_get _ _); [apply play_file_not_no_next | discriminate].
Qed.

Lemma stop_playlist_index st : playlist_index (snd (stop st)) = playlist_index st.
Proof. reflexivity. Qed.

(** What [stop] keeps: the queue, the stored playlists, the bound list
    and its index. *)
Lemma stop_frame st :
  queue (snd (stop st)) = queue st /\
  playlists (snd (stop st)) = playlists st /\
  current_playlist (snd (stop st)) = current_playlist st /\
  playlist_index (snd (stop st)) = playlist_index st /\
  current_song (snd (stop st)) = None /\
  current_playlist_name (snd (stop st)) = None /\
  is_playing (snd (stop st)) = false.
Proof. repeat split. Qed.

Lemma deque_append_bounded_length {A} (d : list A) (x : A) :
  (length (deque_append_bounded HISTORY_MAXLEN d x) <= 50)%nat.
Proof.
  unfold deque_append_bounded, HISTORY_MAXLEN. rewrite length_drop. lia.
Qed.

Lemma deque_append_bounded_spec {A} (d : list A) (x : A) :
  (length d <= 50)%nat ->
  deque_append_bounded HISTORY_MAXLEN d x =
    if (length d <? 50)%nat then d ++ [x] else tail d ++ [x].
Proof.
  intros Hlen. unfold deque_append_bounded, HISTORY_MAXLEN.
  rewrite length_app. simpl.
  destruct (Nat.ltb_spec (length d) 50).
  - replace (length d + 1 - 50)%nat with 0%nat by lia. reflexivity.
  - replace (length d + 1 - 50)%nat with 1%nat by lia.
    destruct d as [|y d]; simpl in *; [lia|]. rewrite drop_0. reflexivity.
Qed.

(* ------------------------------------------------------------------ *)
(** ** Advancing to the next song *)

(** C1: "next" resolves the queue first, then the bound playlist, then
    nothing.  With a non-empty queue, [next] (and the end-of-track handler
    when repeat is not 'one') pops the queue head and plays it, and the
    playlist index is untouched; with an empty queue and a non-empty bound
    list the playlist index advances (or wraps to 0); with neither, [next]
    reports no_next_song and changes nothing (the handler stops). *)
Theorem next_resolution_order (env : Env) (st : Engine) :
  (forall (s : Song) (q : list Song), queue st = s :: q ->
     next env st = play_file env (set_queue st q) (file_location s) /\
     playlist_index (snd (next env st)) = playlist_index st /\
     (repeat st <> One ->
        handle_song_end env st = snd (play_file env (set_queue st q) (file_location s)) /\
        playlist_index (handle_song_end env st) = playlist_index st)) /\
  (queue st = [] -> current_playlist st <> [] ->
     fst (next env st) <> RNoNextSong /\
     (playlist_index (snd (next env st)) = playlist_index st + 1 \/
      playlist_index (snd (next env st)) = 0) /\
     (repeat st <> One ->
        playlist_index (handle_song_end env st) = playlist_index st + 1 \/
        playlist_index (handle_song_end env st) = 0)) /\
  (queue st = [] -> current_playlist st = [] ->
     next env st = (RNoNextSong, st) /\
     (repeat st <> One -> handle_song_end env st = snd (stop st))).
Proof.
  split; [|split].
  - intros s q Hq. unfold next, handle_song_end. rewrite Hq.
    split; [reflexivity|]. split; [rewrite play_file_playlist_index; reflexivity|].
    intros Hr. destruct (repeat st); [| contradiction |];
      (split; [reflexivity | rewrite play_file_playlist_index; reflexivity]).
  - intros Hq Hcp. unfold next, handle_song_end. rewrite Hq.
    destruct (current_playlist st) as [|c cs] eqn:Ecp; [contradiction|].
    cbn [current_playlist set_playlist_index]. rewrite Ecp.
    destruct (_ <=? _).
    + destruct (repeat st) eqn:Er; cbn [repeat set_playlist_index]; rewrite ?Er.
      * split; [discriminate|]. split; [left; reflexivity|]. intros _. left. reflexivity.
      * split; [discriminate|]. split; [left; reflexivity|]. intros H. contradiction.
      * split; [apply play_at_index_not_no_next|].
        split; [right; rewrite play_at_index_playlist_index; reflexivity|].
        intros _. right. rewrite play_at_index_playlist_index. reflexivity.
    + split; [apply play_at_index_not_no_next|].
      split; [left; rewrite play_at_index_playlist_index; reflexivity|].
      intros Hr. left. destruct (repeat st) eqn:Er; [| congruence |];
        rewrite play_at_index_playlist_index; reflexivity.
  - intros Hq Hcp. unfold next, handle_song_end. rewrite Hq, Hcp.
    split; [reflexivity|]. intros Hr.
    destruct (repeat st); [reflexivity|contradiction|reflexivity].
Qed.

(** C3: [next] at the last index of a bound playlist, with an empty queue
    and repeat 'off', reports end_of_playlist but does not stop playback:
    the song keeps playing and the index moves past the end.  The
    end-of-track handler, in the same state, does stop. *)
Theorem next_at_last_index_keeps_playing :
  let st := playing_playlist "P" [song_a] in
  queue st = [] /\ current_playlist_name st = Some "P"%string /\
  current_playlist st = [song_a] /\ playlist_index st = 0 /\ repeat st = Off /\
  fst (next env0 st) = REndOfPlaylist /\
  is_playing (snd (next env0 st)) = true /\
  current_song (snd (next env0 st)) = Some song_a /\
  playlist_index (snd (next env0 st)) = 1 /\
  is_playing (handle_song_end env0 st) = false /\
  current_song (handle_song_end env0 st) = None.
Proof. vm_compute. repeat split. Qed.

(* ------------------------------------------------------------------ *)
(** ** Stop *)

(** C4: [stop] clears the current song and the bound playlist's name,
    but keeps the bound list and its index, so a following [next] plays
    the next song of the playlist that was bound before [stop]. *)
Theorem stop_then_next_resumes_playlist :
  let st := playing_playlist "P" [song_a; song_b] in
  let st' := snd (stop st) in
  current_song st' = None /\ current_playlist_name st' = None /\
  is_playing st' = false /\
  current_playlist st' = [song_a; song_b] /\ playlist_index st' = 0 /\
  fst (next env0 st') = RPlaying song_b /\
  current_song (snd (next env0 st')) = Some song_b.
Proof. vm_compute. repeat split. Qed.

(* ------------------------------------------------------------------ *)
(** ** Volume and mute *)

(** C7 (counterexample): started from a muted engine, toggle_mute,
    set_volume(50), toggle_mute leaves the device at 0, not 50. *)
Lemma mute_sequence_from_muted_silences :
  is_muted engine_muted = true /\
  audio_volume (player (snd (toggle_mute
    (snd (set_volume (snd (toggle_mute engine_muted)) 50))))) = 0.
Proof. vm_compute. split; reflexivity. Qed.

(** C7 (amended): for every engine, toggle_mute, set_volume(50),
    toggle_mute stores 50.  From an unmuted engine the device ends at 50:
    muting sets the device to 0 and keeps the stored volume, set_volume
    while muted stores the volume and leaves the device alone, unmuting
    applies the stored volume.  From a muted engine the first toggle
    unmutes (applying the stored volume), set_volume(50) reaches the
    device, and the second toggle mutes: the sequence ends muted with the
    device at 0. *)
Theorem mute_set_volume_unmute (st : Engine) :
  let st1 := snd (toggle_mute st) in
  let st2 := snd (set_volume st1 50) in
  let st3 := snd (toggle_mute st2) in
  volume st2 = 50 /\ volume st3 = 50 /\
  (is_muted st = false ->
     audio_volume (player st1) = 0 /\ volume st1 = volume st /\ is_muted st1 = true /\
     player st2 = player st1 /\ is_muted st2 = true /\
     audio_volume (player st3) = 50 /\ is_muted st3 = false) /\
  (is_muted st = true ->
     audio_volume (player st1) = volume st /\ volume st1 = volume st /\ is_muted st1 = false /\
     audio_volume (player st2) = 50 /\ is_muted st2 = false /\
     audio_volume (player st3) = 0 /\ is_muted st3 = true).
Proof.
  destruct st as [p cs q m cp cn i h ip v mu sh rp].
  unfold toggle_mute, set_volume. destruct mu; cbn;
    (split; [reflexivity|]); (split; [reflexivity|]);
    split; intros Hm; try discriminate Hm; repeat split.
Qed.

Lemma mute_set_volume_unmute_witness :
  is_muted engine_muted = true /\
  (let st1 := snd (toggle_mute engine_muted) in
   let st2 := snd (set_volume st1 50) in
   let st3 := snd (toggle_mute st2) in
   volume st2 = 50 /\ volume st3 = 50 /\
   (is_muted engine_muted = false ->
      audio_volume (player st1) = 0 /\ volume st1 = volume engine_muted /\
      is_muted st1 = true /\ player st2 = player st1 /\ is_muted st2 = true /\
      audio_volume (player st3) = 50 /\ is_muted st3 = false) /\
   (is_muted engine_muted = true ->
      audio_volume (player st1) = volume engine_muted /\ volume st1 = volume engine_muted /\
      is_muted st1 = false /\ audio_volume (player st2) = 50 /\ is_muted st2 = false /\
      audio_volume (player st3) = 0 /\ is_muted st3 = true)).
Proof. split; [vm_compute; reflexivity | exact (mute_set_volume_unmute engine_muted)]. Defined.

(** C8: set_volume(v) stores clamp(v, 0, 100): 0 below the range, 100
    above it, v inside it; the stored volume is always in [0, 100]. *)
Theorem set_volume_clamps (st : Engine) (v : Z) :
  let st' := snd (set_volume st v) in
  volume st' = Z.max 0 (Z.min 100 v) /\
  0 <= volume st' <= 100 /\
  (v < 0 -> volume st' = 0) /\
  (100 < v -> volume st' = 100) /\
  (0 <= v <= 100 -> volume st' = v) /\
  fst (set_volume st v) = RVolume (volume st').
Proof.
  unfold set_volume. cbn. destruct (is_muted st); cbn; repeat split; lia.
Qed.

(* ------------------------------------------------------------------ *)
(** ** History *)

(** C10: a successful play appends the new current song to the history;
    once 50 entries are held the oldest is dropped and the others keep
    their order, so the history never exceeds 50 entries. *)
Theorem play_file_history_bounded (env : Env) (st : Engine) (path : string)
    (Hex : path_exists env path = true)
    (Hlen : (length (history st) <= 50)%nat) :
  exists song : Song,
    fst (play_file env st path) = RPlaying song /\
    current_song (snd (play_file env st path)) = Some song /\
    history (snd (play_file env st path)) =
      (if (length (history st) <? 50)%nat then history st ++ [song]
       else tail (history st) ++ [song]) /\
    (length (history (snd (play_file env st path))) <= 50)%nat.
Proof.
  unfold play_file. rewrite Hex. cbn [negb].
  set (song := match get_song_info env path with
               | Some info => info
               | None => mkSong path (splitext_root env (basename env path))
                                (basename env path)
               end).
  exists song.
  cbn -[deque_append_bounded]. destruct (is_muted st); cbn -[deque_append_bounded];
    (split; [reflexivity|]); (split; [reflexivity|]);
    (split; [apply deque_append_bounded_spec; exact Hlen
            | apply deque_append_bounded_length]).
Qed.

(** The engine after fifty plays of distinct files: its history is full. *)
Definition paths50 : list string :=
  map (fun k => String.String (Ascii.ascii_of_nat (48 + k)) ".mp3") (seq 0 50).
Definition engine_full_history : Engine :=
  fold_left (fun st p => snd (play_file env0 st p)) paths50 (engine0 ∅).

Lemma play_file_history_bounded_witness :
  path_exists env0 "z.mp3" = true /\
  (length (history engine_full_history) <= 50)%nat /\
  length (history engine_full_history) = 50%nat /\
  exists song : Song,
    fst (play_file env0 engine_full_history "z.mp3") = RPlaying song /\
    current_song (snd (play_file env0 engine_full_history "z.mp3")) = Some song /\
    history (snd (play_file env0 engine_full_history "z.mp3")) =
      (if (length (history engine_full_history) <? 50)%nat
       then history engine_full_history ++ [song]
       else tail (history engine_full_history) ++ [song]) /\
    (length (history (snd (play_file env0 engine_full_history "z.mp3"))) <= 50)%nat.
Proof.
  assert (Hlen : (length (history engine_full_history) <= 50)%nat)
    by (apply Nat.leb_le; vm_compute; reflexivity).
  split; [reflexivity|]. split; [exact Hlen|]. split; [vm_compute; reflexivity|].
  exact (play_file_history_bounded env0 engine_full_history "z.mp3" eq_refl Hlen).
Defined.

(* ------------------------------------------------------------------ *)
(** ** Storage failures during playlist mutations *)

(** The five sibling mutations touch memory only after the storage
    statements succeed: when one raises they return an error and leave
    the tables and the engine as they were. *)
Lemma storage_failure_leaves_state (env : Env) (db : Db) (st : Engine)
    (nm nm2 : string) (songs : list Song) (i : Z) :
  (exists e, create_playlist false db st nm songs = (RError e, db, st)) /\
  (exists e, delete_playlist false db st nm = (RError e, db, st)) /\
  (exists e, add_to_playlist env false db st nm nm2 = (RError e, db, st)) /\
  (exists e, remove_from_playlist false db st nm i = (RError e, db, st)) /\
  (exists e, rename_playlist false db st nm nm2 = (RError e, db, st)).
Proof.
  repeat split.
  - unfold create_playlist. destruct (playlists st !! nm); eauto.
  - unfold delete_playlist. destruct (String.eqb nm LIBRARY); [eauto|].
    destruct (playlists st !! nm); eauto.
  - unfold add_to_playlist. destruct (playlists st !! nm); [|eauto].
    destruct (search_song env nm2); [eauto|].
    destruct (path_exists env nm2); eauto.
  - unfold remove_from_playlist. destruct (playlists st !! nm) as [l|]; [|eauto].
    destruct (String.eqb nm LIBRARY); [eauto|].
    destruct (negb _); [eauto|]. destruct (py_pop l i) as [[? ?]|]; eauto.
  - unfold rename_playlist. destruct (String.eqb nm LIBRARY); [eauto|].
    destruct (playlists st !! nm); [|eauto].
    destruct (bool_decide _); eauto.
Qed.

(** C2: [reorder_playlist] moves the song in the stored list before it
    opens the database; when a storage statement then raises, it returns
    an error but the in-memory playlist stays reordered (and the tables
    keep the old order). *)
Theorem reorder_storage_failure_keeps_memory_change :
  let st := engine0 (<["P" := [song_a; song_b]]> ∅) in
  let '(r, db', st') := reorder_playlist false db0 st "P" 0 1 in
  r = RError Failed /\ db' = db0 /\
  playlists st !! "P"%string = Some [song_a; song_b] /\
  playlists st' !! "P"%string = Some [song_b; song_a].
Proof. vm_compute. repeat split. Qed.

(* ------------------------------------------------------------------ *)
(** ** Removing a song from a playlist *)

Lemma py_pop_in_range {A} (l : list A) (i : Z) :
  0 <= i < Z.of_nat (length l) ->
  exists x, l !! Z.to_nat i = Some x /\
    py_pop l i = Some (x, take (Z.to_nat i) l ++ drop (S (Z.to_nat i)) l).
Proof.
  intros Hi. destruct (lookup_lt_is_Some_2 l (Z.to_nat i)) as [x Hx]; [lia|].
  exists x. split; [exact Hx|].
  unfold py_pop, py_norm.
  replace (i <? 0) with false by (symmetry; apply Z.ltb_ge; lia).
  replace ((i <? 0) || (Z.of_nat (length l) <=? i)) with false
    by (symmetry; apply orb_false_iff; split; [apply Z.ltb_ge | apply Z.leb_gt]; lia).
  rewrite Hx. reflexivity.
Qed.

Lemma rows_of_delete_song_row pid i rows :
  rows_of pid (delete_song_row pid i rows) = delete_song_row pid i (rows_of pid rows).
Proof.
  induction rows as [|r rows IH]; [reflexivity|].
  unfold rows_of, delete_song_row in *. cbn.
  destruct (ps_playlist r =? pid) eqn:E1, (ps_position r =? i) eqn:E2; cbn;
    rewrite ?E1, ?E2; cbn; rewrite ?IH; reflexivity.
Qed.

Lemma rows_of_shift_song_rows pid i rows :
  rows_of pid (shift_song_rows pid i rows) = shift_song_rows pid i (rows_of pid rows).
Proof.
  induction rows as [|r rows IH]; [reflexivity|].
  unfold rows_of, shift_song_rows in *. cbn.
  destruct (ps_playlist r =? pid) eqn:E1; cbn;
    [destruct (i <? ps_position r); cbn; rewrite ?E1; cbn; f_equal; exact IH|].
  rewrite E1. exact IH.
Qed.

Lemma rows_of_delete_other q pid i rows :
  q <> pid -> rows_of q (delete_song_row pid i rows) = rows_of q rows.
Proof.
  intros Hq. induction rows as [|r rows IH]; [reflexivity|].
  unfold rows_of, delete_song_row in *. cbn.
  destruct (ps_playlist r =? pid) eqn:E1, (ps_position r =? i) eqn:E2,
    (ps_playlist r =? q) eqn:E3; cbn; rewrite ?E3, ?IH; try reflexivity.
  apply Z.eqb_eq in E1, E3. lia.
Qed.

Lemma rows_of_shift_other q pid i rows :
  q <> pid -> rows_of q (shift_song_rows pid i rows) = rows_of q rows.
Proof.
  intros Hq. induction rows as [|r rows IH]; [reflexivity|].
  unfold rows_of, shift_song_rows in *. cbn.
  destruct (ps_playlist r =? pid) eqn:E1, (i <? ps_position r) eqn:E2,
    (ps_playlist r =? q) eqn:E3; cbn; rewrite ?E3, ?IH; try reflexivity.
  apply Z.eqb_eq in E1, E3. lia.
Qed.

Lemma rows_of_other_remove q pid i rows :
  q <> pid ->
  rows_of q (shift_song_rows pid i (delete_song_row pid i rows)) = rows_of q rows.
Proof.
  intros Hq. rewrite rows_of_shift_other by exact Hq.
  apply rows_of_delete_other. exact Hq.
Qed.

Lemma delete_song_row_cons pid i r rows :
  delete_song_row pid i (r :: rows) =
  if negb ((ps_playlist r =? pid) && (ps_position r =? i))
  then r :: delete_song_row pid i rows else delete_song_row pid i rows.
Proof. reflexivity. Qed.

Lemma shift_song_rows_cons pid i r rows :
  shift_song_rows pid i (r :: rows) =
  (if (ps_playlist r =? pid) && (i <? ps_position r)
   then mkPsRow (ps_playlist r) (ps_song r) (ps_position r - 1) else r)
  :: shift_song_rows pid i rows.
Proof. reflexivity. Qed.

Lemma delete_song_row_enum_above pid i k l :
  i < k -> delete_song_row pid i (enum_rows pid k l) = enum_rows pid k l.
Proof.
  revert k. induction l as [|s l IH]; intros k Hk; [reflexivity|].
  cbn [enum_rows]. rewrite delete_song_row_cons. cbn [ps_playlist ps_position].
  rewrite Z.eqb_refl. replace (k =? i) with false by (symmetry; apply Z.eqb_neq; lia).
  cbn [andb negb]. f_equal. apply IH. lia.
Qed.

Lemma shift_song_rows_enum_above pid i k l :
  i < k -> shift_song_rows pid i (enum_rows pid k l) = enum_rows pid (k - 1) l.
Proof.
  revert k. induction l as [|s l IH]; intros k Hk; [reflexivity|].
  cbn [enum_rows]. rewrite shift_song_rows_cons. cbn [ps_playlist ps_position ps_song].
  rewrite Z.eqb_refl. replace (i <? k) with true by (symmetry; apply Z.ltb_lt; lia).
  cbn [andb]. f_equal. rewrite IH by lia. f_equal. lia.
Qed.

(** Deleting the row at position [k + n] and shifting the later ones
    down leaves the positions of the remaining songs dense. *)
Lemma remove_rows_enum pid k l n :
  (n < length l)%nat ->
  shift_song_rows pid (k + Z.of_nat n)
    (delete_song_row pid (k + Z.of_nat n) (enum_rows pid k l)) =
  enum_rows pid k (take n l ++ drop (S n) l).
Proof.
  revert k n. induction l as [|s l IH]; intros k n Hn; cbn in Hn; [lia|].
  cbn [enum_rows]. rewrite delete_song_row_cons. cbn [ps_playlist ps_position].
  rewrite Z.eqb_refl. cbn [andb].
  destruct n as [|n].
  - replace (k =? k + Z.of_nat 0) with true by (symmetry; apply Z.eqb_eq; lia).
    cbn [negb take drop app].
    rewrite delete_song_row_enum_above by lia.
    rewrite shift_song_rows_enum_above by lia. f_equal. lia.
  - replace (k =? k + Z.of_nat (S n)) with false by (symmetry; apply Z.eqb_neq; lia).
    cbn [negb take drop app enum_rows]. rewrite shift_song_rows_cons.
    cbn [ps_playlist ps_position]. rewrite Z.eqb_refl.
    replace (k + Z.of_nat (S n) <? k) with false by (symmetry; apply Z.ltb_ge; lia).
    cbn [andb]. f_equal.
    replace (k + Z.of_nat (S n)) with ((k + 1) + Z.of_nat n) by lia.
    apply IH. lia.
Qed.

Ltac engine_simpl :=
  cbn [fst snd playlists current_playlist current_playlist_name playlist_index
       set_playlists set_current_playlist set_playlist_index
       tbl_playlist_songs set_playlist_songs negb andb].

(** C5: [remove_from_playlist(name, i)] on an existing non-Library
    playlist and an index in [0, len) removes exactly the entry at [i];
    the stored rows of the playlist are renumbered so that positions stay
    the dense sequence 0, 1, ... of the new list, other playlists' rows
    are untouched; when the playlist is bound, the same entry leaves the
    bound copy and the index is decremented exactly when [i] lies strictly
    before it.  Unknown playlists fail with not-found, the Library with
    the protected error, an index out of range with invalid-index. *)
Theorem remove_from_playlist_spec (db : Db) (st : Engine) (pname : string) (i : Z) :
  (playlists st !! pname = None ->
     remove_from_playlist true db st pname i = (RError PlaylistNotFound, db, st)) /\
  (pname = LIBRARY -> is_Some (playlists st !! pname) ->
     remove_from_playlist true db st pname i = (RError Protected, db, st)) /\
  (forall l : list Song, playlists st !! pname = Some l -> pname <> LIBRARY ->
     ~ (0 <= i < Z.of_nat (length l)) ->
     remove_from_playlist true db st pname i = (RError InvalidIndex, db, st)) /\
  (forall (l : list Song) (pid : Z),
     playlists st !! pname = Some l -> pname <> LIBRARY ->
     0 <= i < Z.of_nat (length l) ->
     select_playlist_id db pname = Some pid ->
     rows_of pid (tbl_playlist_songs db) = enum_rows pid 0 l ->
     (current_playlist_name st = Some pname ->
        length (current_playlist st) = length l) ->
     let n := Z.to_nat i in
     let '(r, db', st') := remove_from_playlist true db st pname i in
     (exists s, l !! n = Some s /\ r = RSongRemoved s) /\
     playlists st' !! pname = Some (take n l ++ drop (S n) l) /\
     (forall other, other <> pname -> playlists st' !! other = playlists st !! other) /\
     rows_of pid (tbl_playlist_songs db') = enum_rows pid 0 (take n l ++ drop (S n) l) /\
     (forall q, q <> pid ->
        rows_of q (tbl_playlist_songs db') = rows_of q (tbl_playlist_songs db)) /\
     (current_playlist_name st = Some pname ->
        current_playlist st' =
          take n (current_playlist st) ++ drop (S n) (current_playlist st) /\
        (i < playlist_index st -> playlist_index st' = playlist_index st - 1) /\
        (playlist_index st <= i -> playlist_index st' = playlist_index st)) /\
     (current_playlist_name st <> Some pname ->
        current_playlist st' = current_playlist st /\
        playlist_index st' = playlist_index st)).
Proof.
  split; [|split; [|split]].
  - intros Hn. unfold remove_from_playlist. rewrite Hn. reflexivity.
  - intros -> [l Hl]. unfold remove_from_playlist. rewrite Hl. reflexivity.
  - intros l Hl Hlib Hi. unfold remove_from_playlist. rewrite Hl.
    replace (String.eqb pname LIBRARY) with false
      by (symmetry; apply String.eqb_neq; exact Hlib).
    replace ((0 <=? i) && (i <? Z.of_nat (length l))) with false; [reflexivity|].
    symmetry. apply andb_false_iff.
    destruct (Z.leb_spec 0 i); [right; apply Z.ltb_ge; lia | left; reflexivity].
  - intros l pid Hl Hlib Hi Hpid Hrows Hbound n.
    destruct (py_pop_in_range l i Hi) as [x [Hx Hpop]].
    unfold remove_from_playlist. rewrite Hl.
    replace (String.eqb pname LIBRARY) with false
      by (symmetry; apply String.eqb_neq; exact Hlib).
    replace ((0 <=? i) && (i <? Z.of_nat (length l))) with true
      by (symmetry; apply andb_true_iff; split; [apply Z.leb_le | apply Z.ltb_lt]; lia).
    engine_simpl. rewrite Hpop. engine_simpl. rewrite Hpid.
    assert (Hrows' : rows_of pid (shift_song_rows pid i
                       (delete_song_row pid i (tbl_playlist_songs db))) =
                     enum_rows pid 0 (take n l ++ drop (S n) l)).
    { rewrite rows_of_shift_song_rows, rows_of_delete_song_row, Hrows.
      replace i with (0 + Z.of_nat n) at 1 2 by (unfold n; lia).
      apply remove_rows_enum. unfold n. lia. }
    assert (Hother : forall q, q <> pid ->
              rows_of q (shift_song_rows pid i (delete_song_row pid i (tbl_playlist_songs db)))
              = rows_of q (tbl_playlist_songs db))
      by (intros q Hq; apply rows_of_other_remove; exact Hq).
    case_bool_decide as Hb.
    + destruct (py_pop_in_range (current_playlist st) i) as [y [Hy Hpop']];
        [rewrite Hbound by exact Hb; exact Hi|].
      rewrite Hpop'. engine_simpl.
      split; [exists x; split; [exact Hx | reflexivity]|].
      destruct (Z.ltb_spec i (playlist_index st)); engine_simpl;
        (split; [apply lookup_insert_eq|]);
        (split; [intros o Ho; apply lookup_insert_ne; congruence|]);
        (split; [exact Hrows'|]); (split; [exact Hother|]);
        (split; [intros _; repeat split; intros; lia | intros Hc; contradiction]).
    + engine_simpl.
      split; [exists x; split; [exact Hx | reflexivity]|].
      split; [apply lookup_insert_eq|].
      split; [intros o Ho; apply lookup_insert_ne; congruence|].
      split; [exact Hrows'|]. split; [exact Hother|].
      split; [intros Hc; contradiction | intros _; split; reflexivity].
Qed.

(* ------------------------------------------------------------------ *)
(** ** Reordering a playlist *)

Lemma py_pop_perm {A} (l : list A) (i : Z) (x : A) (rest : list A) :
  py_pop l i = Some (x, rest) -> l ≡ₚ x :: rest.
Proof.
  unfold py_pop. destruct (_ || _); [discriminate|].
  destruct (l !! _) as [y|] eqn:Hy; [|discriminate].
  intros [= <- <-].
  rewrite <- (take_drop_middle l _ y Hy) at 1.
  symmetry. apply Permutation_middle.
Qed.

Lemma py_insert_perm {A} (l : list A) (i : Z) (x : A) :
  py_insert l i x ≡ₚ x :: l.
Proof.
  unfold py_insert.
  rewrite <- Permutation_middle. rewrite take_drop. reflexivity.
Qed.

Lemma py_move_perm (l l1 : list Song) (f t : Z) :
  py_move l f t = Some l1 -> l1 ≡ₚ l.
Proof.
  unfold py_move. destruct (py_pop l f) as [[x rest]|] eqn:Hp; [|discriminate].
  intros [= <-]. rewrite py_insert_perm. symmetry. apply (py_pop_perm _ _ _ _ Hp).
Qed.

Lemma py_insert_in_range {A} (l : list A) (i : Z) (x : A) :
  0 <= i <= Z.of_nat (length l) ->
  py_insert l i x = take (Z.to_nat i) l ++ x :: drop (Z.to_nat i) l.
Proof.
  intros Hi. unfold py_insert, py_norm.
  replace (i <? 0) with false by (symmetry; apply Z.ltb_ge; lia).
  replace (Z.max 0 (Z.min i (Z.of_nat (length l)))) with i by lia.
  reflexivity.
Qed.

Lemma py_move_in_range (l : list Song) (f t : Z) :
  0 <= f < Z.of_nat (length l) -> 0 <= t < Z.of_nat (length l) ->
  exists x, l !! Z.to_nat f = Some x /\
    py_move l f t =
      Some (let l1 := take (Z.to_nat f) l ++ drop (S (Z.to_nat f)) l in
            take (Z.to_nat t) l1 ++ x :: drop (Z.to_nat t) l1).
Proof.
  intros Hf Ht. destruct (py_pop_in_range l f Hf) as [x [Hx Hp]].
  exists x. split; [exact Hx|]. unfold py_move. rewrite Hp.
  rewrite py_insert_in_range; [reflexivity|].
  rewrite length_app, length_take, length_drop. lia.
Qed.

(** Moving an entry from [f] to [t] and back from [t] to [f] restores
    the list. *)
Lemma py_move_inverse (l l1 : list Song) (f t : Z) :
  0 <= f < Z.of_nat (length l) -> 0 <= t < Z.of_nat (length l) ->
  py_move l f t = Some l1 -> py_move l1 t f = Some l.
Proof.
  intros Hf Ht Hm. destruct (py_move_in_range l f t Hf Ht) as [x [Hx Hm']].
  rewrite Hm' in Hm. injection Hm as <-.
  set (fn := Z.to_nat f) in *. set (tn := Z.to_nat t).
  set (r := take fn l ++ drop (S fn) l).
  assert (Hr : length r = (length l - 1)%nat).
  { unfold r. rewrite length_app, length_take, length_drop. unfold fn. lia. }
  assert (Htake : length (take tn r) = tn)
    by (rewrite length_take; unfold tn; lia).
  assert (Hpop : py_pop (take tn r ++ x :: drop tn r) t = Some (x, r)).
  { destruct (py_pop_in_range (take tn r ++ x :: drop tn r) t) as [y [Hy Hp]].
    { rewrite length_app. cbn [length]. rewrite Htake, length_drop. unfold tn. lia. }
    rewrite Hp. fold tn in Hy |- *.
    rewrite list_lookup_middle in Hy by (symmetry; exact Htake). injection Hy as <-.
    rewrite take_app_length' by (symmetry; exact Htake).
    rewrite drop_app, Htake, drop_ge by (rewrite Htake; lia).
    replace (S tn - tn)%nat with 1%nat by lia. cbn [app drop].
    rewrite drop_0, take_drop. reflexivity. }
  unfold py_move. rewrite Hpop.
  rewrite py_insert_in_range by (rewrite Hr; lia). fold fn. f_equal.
  assert (Hfl : length (take fn l) = fn) by (rewrite length_take; unfold fn; lia).
  unfold r. rewrite take_app_length' by (symmetry; exact Hfl).
  rewrite drop_app_length' by (symmetry; exact Hfl).
  apply take_drop_middle. exact Hx.
Qed.

(** One successful [reorder_playlist] call, field by field. *)
Lemma reorder_playlist_step (db : Db) (st : Engine) (pname : string)
    (l : list Song) (f t : Z) :
  playlists st !! pname = Some l -> pname <> LIBRARY ->
  0 <= f < Z.of_nat (length l) -> 0 <= t < Z.of_nat (length l) ->
  (current_playlist_name st = Some pname -> length (current_playlist st) = length l) ->
  exists l1, py_move l f t = Some l1 /\
  let '(r, db1, st1) := reorder_playlist true db st pname f t in
  r = RPlaylistReordered /\
  playlists st1 = <[pname := l1]> (playlists st) /\
  current_playlist_name st1 = current_playlist_name st /\
  (current_playlist_name st = Some pname ->
     py_move (current_playlist st) f t = Some (current_playlist st1) /\
     playlist_index st1 = reorder_index f t (playlist_index st)) /\
  (current_playlist_name st <> Some pname ->
     current_playlist st1 = current_playlist st /\
     playlist_index st1 = playlist_index st).
Proof.
  intros Hl Hlib Hf Ht Hbound.
  destruct (py_move_in_range l f t Hf Ht) as [x [_ Hm]].
  eexists. split; [exact Hm|].
  unfold reorder_playlist. rewrite Hl.
  replace (String.eqb pname LIBRARY) with false
    by (symmetry; apply String.eqb_neq; exact Hlib).
  replace ((0 <=? f) && (f <? Z.of_nat (length l)) && (0 <=? t) && (t <? Z.of_nat (length l)))
    with true by (symmetry; repeat rewrite andb_true_iff;
                  repeat split; (apply Z.leb_le || apply Z.ltb_lt); lia).
  engine_simpl. rewrite Hm. engine_simpl.
  case_bool_decide as Hb.
  - assert (Hcp : length (current_playlist st) = length l) by (apply Hbound; exact Hb).
    destruct (py_move_in_range (current_playlist st) f t) as [y [_ Hm']];
      [rewrite Hcp; exact Hf | rewrite Hcp; exact Ht |].
    rewrite Hm'. engine_simpl.
    split; [reflexivity|]. split; [reflexivity|]. split; [reflexivity|].
    split; [intros _; split; reflexivity | intros Hc; contradiction].
  - engine_simpl.
    split; [reflexivity|]. split; [reflexivity|]. split; [reflexivity|].
    split; [intros Hc; contradiction | intros _; split; reflexivity].
Qed.

(** C6: on an existing non-Library playlist with [from] and [to] in
    [0, len), [reorder_playlist(name, from, to)] permutes the songs, the
    inverse call [reorder_playlist(name, to, from)] restores the original
    order (of the stored list and of the bound copy), other playlists are
    untouched, and on the bound playlist the index follows move
    semantics: it becomes [to] if it was [from], moves one step toward
    [from] if it lay in the range passed over, and stays otherwise. *)
Theorem reorder_playlist_move (db : Db) (st : Engine) (pname : string)
    (l : list Song) (f t : Z)
    (Hl : playlists st !! pname = Some l) (Hlib : pname <> LIBRARY)
    (Hf : 0 <= f < Z.of_nat (length l)) (Ht : 0 <= t < Z.of_nat (length l))
    (Hbound : current_playlist_name st = Some pname ->
              length (current_playlist st) = length l) :
  let '(r, db1, st1) := reorder_playlist true db st pname f t in
  let '(r2, _, st2) := reorder_playlist true db1 st1 pname t f in
  r = RPlaylistReordered /\
  (exists l1, playlists st1 !! pname = Some l1 /\ l1 ≡ₚ l) /\
  (forall other, other <> pname -> playlists st1 !! other = playlists st !! other) /\
  r2 = RPlaylistReordered /\
  playlists st2 !! pname = Some l /\
  (current_playlist_name st = Some pname ->
     current_playlist st1 ≡ₚ current_playlist st /\
     current_playlist st2 = current_playlist st /\
     (playlist_index st = f -> playlist_index st1 = t) /\
     (f < playlist_index st <= t -> playlist_index st1 = playlist_index st - 1) /\
     (t <= playlist_index st < f -> playlist_index st1 = playlist_index st + 1) /\
     (playlist_index st <> f -> ~ (f < playlist_index st <= t) ->
      ~ (t <= playlist_index st < f) -> playlist_index st1 = playlist_index st)) /\
  (current_playlist_name st <> Some pname ->
     current_playlist st1 = current_playlist st /\
     playlist_index st1 = playlist_index st).
Proof.
  destruct (reorder_playlist_step db st pname l f t Hl Hlib Hf Ht Hbound)
    as [l1 [Hm H1]].
  destruct (reorder_playlist true db st pname f t) as [[r db1] st1].
  destruct H1 as (Hr & Hpl & Hname & Hb & Hnb).
  assert (Hperm : l1 ≡ₚ l) by (exact (py_move_perm _ _ _ _ Hm)).
  assert (Hlen : length l1 = length l) by (apply Permutation_length; exact Hperm).
  assert (Hl1 : playlists st1 !! pname = Some l1) by (rewrite Hpl; apply lookup_insert_eq).
  destruct (reorder_playlist_step db1 st1 pname l1 t f Hl1 Hlib) as [l2 [Hm2 H2]];
    [rewrite Hlen; exact Ht | rewrite Hlen; exact Hf | |].
  { rewrite Hname. intros Hc. destruct (Hb Hc) as [Hcm _].
    rewrite (Permutation_length (py_move_perm _ _ _ _ Hcm)), Hlen. apply Hbound. exact Hc. }
  destruct (reorder_playlist true db1 st1 pname t f) as [[r2 db2] st2].
  destruct H2 as (Hr2 & Hpl2 & Hname2 & Hb2 & Hnb2).
  rewrite (py_move_inverse l l1 f t Hf Ht Hm) in Hm2. injection Hm2 as <-.
  split; [exact Hr|].
  split; [exists l1; split; [exact Hl1 | exact Hperm]|].
  split; [intros o Ho; rewrite Hpl; apply lookup_insert_ne; congruence|].
  split; [exact Hr2|].
  split; [rewrite Hpl2; apply lookup_insert_eq|].
  split.
  - intros Hc. destruct (Hb Hc) as [Hcm Hidx].
    assert (Hcl : length (current_playlist st) = length l) by (apply Hbound; exact Hc).
    destruct (Hb2 ltac:(rewrite Hname; exact Hc)) as [Hcm2 _].
    rewrite (py_move_inverse (current_playlist st) (current_playlist st1) f t)
      in Hcm2 by (rewrite ?Hcl; assumption).
    split; [exact (py_move_perm _ _ _ _ Hcm)|].
    split; [injection Hcm2 as <-; reflexivity|].
    rewrite Hidx. unfold reorder_index.
    destruct (Z.eqb_spec (playlist_index st) f);
      [repeat split; intros; lia|].
    destruct (Z.ltb_spec f (playlist_index st)), (Z.leb_spec (playlist_index st) t),
      (Z.leb_spec t (playlist_index st)), (Z.ltb_spec (playlist_index st) f);
      cbn [andb]; repeat split; intros; lia.
  - exact Hnb.
Qed.

Lemma reorder_playlist_move_witness :
  let st := playing_playlist "P" [song_a; song_b; song_c] in
  playlists st !! "P"%string = Some [song_a; song_b; song_c] /\
  ("P"%string <> LIBRARY) /\
  let '(r, db1, st1) := reorder_playlist true db0 st "P" 0 2 in
  let '(r2, _, st2) := reorder_playlist true db1 st1 "P" 2 0 in
  r = RPlaylistReordered /\
  (exists l1, playlists st1 !! "P"%string = Some l1 /\ l1 ≡ₚ [song_a; song_b; song_c]) /\
  (forall other, other <> "P"%string -> playlists st1 !! other = playlists st !! other) /\
  r2 = RPlaylistReordered /\
  playlists st2 !! "P"%string = Some [song_a; song_b; song_c] /\
  (current_playlist_name st = Some "P"%string ->
     current_playlist st1 ≡ₚ current_playlist st /\
     current_playlist st2 = current_playlist st /\
     (playlist_index st = 0 -> playlist_index st1 = 2) /\
     (0 < playlist_index st <= 2 -> playlist_index st1 = playlist_index st - 1) /\
     (2 <= playlist_index st < 0 -> playlist_index st1 = playlist_index st + 1) /\
     (playlist_index st <> 0 -> ~ (0 < playlist_index st <= 2) ->
      ~ (2 <= playlist_index st < 0) -> playlist_index st1 = playlist_index st)) /\
  (current_playlist_name st <> Some "P"%string ->
     current_playlist st1 = current_playlist st /\
     playlist_index st1 = playlist_index st).
Proof.
  cbv zeta. split; [reflexivity|]. split; [discriminate|].
  apply (reorder_playlist_move db0 _ "P" [song_a; song_b; song_c] 0 2);
    [vm_compute; reflexivity | discriminate | cbn; lia | cbn; lia
    | intros _; vm_compute; reflexivity].
Defined.

(* ------------------------------------------------------------------ *)
(** ** Song registration *)

Lemma select_music_id_None rows loc :
  select_music_id rows loc = None ->
  List.filter (fun r => String.eqb (m_file_location r) loc) rows = [].
Proof.
  induction rows as [|r rows IH]; cbn; [reflexivity|].
  destruct (String.eqb (m_file_location r) loc); [discriminate | exact IH].
Qed.

Lemma select_music_id_Some rows loc id :
  select_music_id rows loc = Some id ->
  (1 <= length (List.filter (fun r => String.eqb (m_file_location r) loc) rows))%nat.
Proof.
  induction rows as [|r rows IH]; cbn; [discriminate|].
  destruct (String.eqb (m_file_location r) loc); cbn; [lia | exact IH].
Qed.

Lemma select_music_id_snoc rows loc r :
  select_music_id rows loc = None ->
  select_music_id (rows ++ [r]) loc =
    if String.eqb (m_file_location r) loc then Some (m_id r) else None.
Proof.
  induction rows as [|r' rows IH]; cbn; [reflexivity|].
  destruct (String.eqb (m_file_location r') loc); [discriminate | exact IH].
Qed.

(** Registration never adds a second row for a location: a table with
    at most one row per location keeps that property. *)
Lemma add_music_entry_unique (env : Env) (mdb : MusicDb) (p : string)
    (nm : option string) :
  (forall loc, count_location mdb loc <= 1)%nat ->
  (forall loc, count_location (snd (add_music_entry env mdb p nm)) loc <= 1)%nat.
Proof.
  intros Hu loc. unfold add_music_entry.
  destruct (select_music_id (music_rows mdb) (abspath env p)) eqn:Hs; cbn; [apply Hu|].
  unfold count_location in *. cbn. rewrite List.filter_app, length_app. cbn.
  destruct (String.eqb (abspath env p) loc) eqn:E; cbn; [|specialize (Hu loc); lia].
  apply String.eqb_eq in E. subst loc.
  rewrite (select_music_id_None _ _ Hs). cbn. lia.
Qed.

(** C9: registration is idempotent on the normalised path: a path whose
    [abspath] is already stored returns the stored id and inserts
    nothing; calling [add_music_entry] twice with the same path returns
    the same id both times and leaves exactly one row for it (on a table
    holding at most one row for that path, which registration keeps). *)
Theorem add_music_entry_idempotent (env : Env) (mdb : MusicDb) (p : string)
    (nm1 nm2 : option string)
    (Huniq : (count_location mdb (abspath env p) <= 1)%nat) :
  (forall id, select_music_id (music_rows mdb) (abspath env p) = Some id ->
     add_music_entry env mdb p nm1 = (id, mdb)) /\
  let '(id1, mdb1) := add_music_entry env mdb p nm1 in
  let '(id2, mdb2) := add_music_entry env mdb1 p nm2 in
  id1 = id2 /\ mdb2 = mdb1 /\ count_location mdb2 (abspath env p) = 1%nat.
Proof.
  split.
  - intros id Hs. unfold add_music_entry. rewrite Hs. reflexivity.
  - unfold add_music_entry at 1.
    destruct (select_music_id (music_rows mdb) (abspath env p)) as [id|] eqn:Hs.
    + unfold add_music_entry. rewrite Hs.
      split; [reflexivity|]. split; [reflexivity|].
      pose proof (select_music_id_Some _ _ _ Hs). unfold count_location in *. lia.
    + unfold add_music_entry. cbn [music_rows].
      rewrite (select_music_id_snoc _ _ _ Hs). cbn [m_file_location m_id].
      rewrite String.eqb_refl.
      split; [reflexivity|]. split; [reflexivity|].
      unfold count_location. cbn [music_rows].
      rewrite List.filter_app, length_app, (select_music_id_None _ _ Hs).
      cbn. rewrite String.eqb_refl. reflexivity.
Qed.

Lemma add_music_entry_idempotent_witness :
  let mdb := mkMusicDb [] 0 in
  (count_location mdb (abspath env0 "a.mp3") <= 1)%nat /\
  (forall id, select_music_id (music_rows mdb) (abspath env0 "a.mp3") = Some id ->
     add_music_entry env0 mdb "a.mp3" None = (id, mdb)) /\
  let '(id1, mdb1) := add_music_entry env0 mdb "a.mp3" None in
  let '(id2, mdb2) := add_music_entry env0 mdb1 "a.mp3" (Some "A"%string) in
  id1 = id2 /\ mdb2 = mdb1 /\ count_location mdb2 (abspath env0 "a.mp3") = 1%nat.
Proof.
  cbv zeta. split; [cbn; lia|].
  apply (add_music_entry_idempotent env0 (mkMusicDb [] 0) "a.mp3" None (Some "A"%string)).
  cbn; lia.
Defined.

(** The success case of C5 on a concrete bound playlist: its hypotheses
    hold, removing position 0 while the index is 1 leaves [b, c] with
    dense positions and moves the index to 0. *)
Example remove_from_playlist_bound_example :
  let st := snd (next env0 (playing_playlist "P" [song_a; song_b; song_c])) in
  playlists st !! "P"%string = Some [song_a; song_b; song_c] /\
  select_playlist_id db_playlist_P "P" = Some 1 /\
  rows_of 1 (tbl_playlist_songs db_playlist_P) = enum_rows 1 0 [song_a; song_b; song_c] /\
  current_playlist_name st = Some "P"%string /\ playlist_index st = 1 /\
  (let '(r, db', st') := remove_from_playlist true db_playlist_P st "P" 0 in
   r = RSongRemoved song_a /\
   playlists st' !! "P"%string = Some [song_b; song_c] /\
   rows_of 1 (tbl_playlist_songs db') = enum_rows 1 0 [song_b; song_c] /\
   current_playlist st' = [song_b; song_c] /\ playlist_index st' = 0).
Proof. vm_compute. repeat split. Qed.

(* ================================================================== *)
(** * Further properties of the engine and the stores *)

(** ** Helper lemmas *)

Lemma play_file_fst env st st' p :
  fst (play_file env st p) = fst (play_file env st' p).
Proof. unfold play_file. destruct (path_exists env p); reflexivity. Qed.

(** What [play_file] keeps: the queue, the playlists, the bound list,
    its name and its index. *)
Lemma play_file_frame env st p :
  let st' := snd (play_file env st p) in
  queue st' = queue st /\ playlists st' = playlists st /\
  current_playlist st' = current_playlist st /\
  current_playlist_name st' = current_playlist_name st /\
  playlist_index st' = playlist_index st.
Proof.
  unfold play_file. destruct (path_exists env p); cbn; [|repeat split].
  destruct (is_muted st); cbn; repeat split.
Qed.

Lemma play_file_history_length env st p :
  (length (history (snd (play_file env st p))) <= S (length (history st)))%nat.
Proof.
  unfold play_file. destruct (path_exists env p); cbn; [|lia].
  destruct (is_muted st); cbn; unfold deque_append_bounded;
    rewrite length_drop, length_app; cbn; lia.
Qed.

Lemma py_get_in_range {A} (l : list A) (i : Z) (x : A) :
  0 <= i -> l !! Z.to_nat i = Some x -> py_get l i = Some x.
Proof.
  intros Hi Hx. pose proof (lookup_lt_Some _ _ _ Hx) as Hlt.
  unfold py_get, py_norm.
  replace (i <? 0) with false by (symmetry; apply Z.ltb_ge; lia).
  replace ((i <? 0) || (Z.of_nat (length l) <=? i)) with false
    by (symmetry; apply orb_false_iff; split; [apply Z.ltb_ge | apply Z.leb_gt]; lia).
  exact Hx.
Qed.

Lemma py_slice_bound_nonneg {A} (l : list A) (j : nat) :
  py_slice_bound l (Z.of_nat j + 1) = Nat.min (S j) (length l).
Proof.
  unfold py_slice_bound.
  replace (Z.of_nat j + 1 <? 0) with false by (symmetry; apply Z.ltb_ge; lia). lia.
Qed.

Lemma py_pop_length {A} (l l' : list A) (i : Z) (x : A) :
  py_pop l i = Some (x, l') -> S (length l') = length l.
Proof.
  unfold py_pop. destruct (_ || _) eqn:Hr; [discriminate|].
  destruct (l !! _) eqn:Hx; [|discriminate]. intros [= <- <-].
  pose proof (lookup_lt_Some _ _ _ Hx).
  rewrite length_app, length_take, length_drop. lia.
Qed.

(** Whether [pop(i)] raises depends only on the length of the list. *)
Lemma py_pop_some_len {A B} (l : list A) (k : list B) (i : Z) :
  length l = length k -> is_Some (py_pop l i) -> is_Some (py_pop k i).
Proof.
  unfold py_pop, py_norm. intros Hlen. rewrite Hlen.
  destruct (_ || _) eqn:Hr; [intros [? Hx]; discriminate|].
  intros _.
  destruct (lookup_lt_is_Some_2 k (Z.to_nat (if i <? 0 then Z.of_nat (length k) + i else i)))
    as [y Hy].
  { apply orb_false_iff in Hr as [H1 H2]. apply Z.ltb_ge in H1. apply Z.leb_gt in H2. lia. }
  rewrite Hy. eauto.
Qed.

Lemma py_move_length (l l1 : list Song) (f t : Z) :
  py_move l f t = Some l1 -> length l1 = length l.
Proof. intros Hm. apply Permutation_length. exact (py_move_perm _ _ _ _ Hm). Qed.

Lemma py_move_some_len (l k : list Song) (f t : Z) :
  length l = length k -> is_Some (py_move l f t) -> is_Some (py_move k f t).
Proof.
  unfold py_move. intros Hlen.
  destruct (py_pop l f) as [[x r]|] eqn:Hp; [|intros [? Hn]; discriminate].
  intros _. destruct (py_pop_some_len l k f Hlen) as [[y r'] Hq]; [eauto|].
  rewrite Hq. eauto.
Qed.

(** *** The bound copy *)

Lemma bound_consistent_iff (st : Engine) :
  bound_consistent st <->
  forall n, current_playlist_name st = Some n ->
    exists l, playlists st !! n = Some l /\ length (current_playlist st) = length l.
Proof.
  unfold bound_consistent. destruct (current_playlist_name st) as [n|]; split.
  - destruct (playlists st !! n) as [l|] eqn:Hl; [|contradiction].
    intros Hlen n' [= <-]. exists l. split; assumption.
  - intros H. destruct (H n eq_refl) as [l [-> Hlen]]. exact Hlen.
  - intros _ n' Hn. discriminate.
  - intros _. exact I.
Qed.

Lemma bound_consistent_frame (st st' : Engine) :
  playlists st' = playlists st -> current_playlist st' = current_playlist st ->
  current_playlist_name st' = current_playlist_name st ->
  bound_consistent st -> bound_consistent st'.
Proof. intros Hm Hc Hn. unfold bound_consistent. rewrite Hm, Hc, Hn. tauto. Qed.

Ltac bc_simpl :=
  cbn [fst snd playlists current_playlist current_playlist_name playlist_index
       set_playlists set_current_playlist set_playlist_index set_current_playlist_name
       set_playlist_songs negb andb orb] in *.

Lemma create_keeps_bound ok db st nm songs :
  bound_consistent st -> bound_consistent (create_playlist ok db st nm songs).2.
Proof.
  rewrite !bound_consistent_iff. intros H. unfold create_playlist.
  destruct (playlists st !! nm) eqn:Hnm; [exact H|].
  destruct (negb ok || name_in_table db nm); [exact H|].
  intros n Hn. bc_simpl. destruct (H n Hn) as [l [Hl Hlen]].
  exists l. split; [|exact Hlen].
  rewrite lookup_insert_ne; [exact Hl|]. intros ->. congruence.
Qed.

Lemma delete_keeps_bound ok db st nm :
  bound_consistent st -> bound_consistent (delete_playlist ok db st nm).2.
Proof.
  rewrite !bound_consistent_iff. intros H. unfold delete_playlist.
  destruct (String.eqb nm LIBRARY); [exact H|].
  destruct (playlists st !! nm) eqn:Hnm; [|exact H].
  destruct ok; [|exact H]. bc_simpl.
  case_bool_decide as Hb; intros n Hn; bc_simpl; [discriminate|].
  destruct (H n Hn) as [l0 [Hl Hlen]]. exists l0. split; [|exact Hlen].
  rewrite lookup_delete_ne; [exact Hl|]. intros ->. contradiction.
Qed.

Lemma add_keeps_bound env ok db st pname sn :
  bound_consistent st -> bound_consistent (add_to_playlist env ok db st pname sn).2.
Proof.
  rewrite !bound_consistent_iff. intros H. unfold add_to_playlist.
  destruct (playlists st !! pname) as [l|] eqn:Hp; [|exact H].
  destruct (match search_song env sn with Some s => Some s | None => _ end) as [s|];
    [|exact H].
  destruct ok; [|exact H]. bc_simpl.
  case_bool_decide as Hb; intros n Hn; bc_simpl.
  - rewrite Hb in Hn. injection Hn as <-.
    destruct (H pname Hb) as [l0 [Hl Hlen]]. rewrite Hp in Hl. injection Hl as <-.
    exists (l ++ [s]). rewrite lookup_insert_eq, !length_app, Hlen. split; reflexivity.
  - destruct (H n Hn) as [l0 [Hl Hlen]]. exists l0. split; [|exact Hlen].
    rewrite lookup_insert_ne; [exact Hl|]. intros ->. contradiction.
Qed.

Lemma remove_keeps_bound ok db st pname i :
  bound_consistent st -> bound_consistent (remove_from_playlist ok db st pname i).2.
Proof.
  rewrite !bound_consistent_iff. intros H. unfold remove_from_playlist.
  destruct (playlists st !! pname) as [l|] eqn:Hp; [|exact H].
  destruct (String.eqb pname LIBRARY); [exact H|].
  destruct (negb _); [exact H|].
  destruct (py_pop l i) as [[x l']|] eqn:Hpop; [|exact H].
  destruct ok; [|exact H]. bc_simpl.
  case_bool_decide as Hb.
  - destruct (H pname Hb) as [l0 [Hl Hlen]]. rewrite Hp in Hl. injection Hl as <-.
    destruct (py_pop_some_len l (current_playlist st) i) as [[y cp'] Hcp];
      [symmetry; exact Hlen | rewrite Hpop; eauto |].
    rewrite Hcp.
    assert (Hst : forall st2 : Engine, current_playlist_name st2 = Some pname ->
              playlists st2 = <[pname := l']> (playlists st) ->
              current_playlist st2 = cp' ->
              forall n, current_playlist_name st2 = Some n ->
                exists l0, playlists st2 !! n = Some l0 /\
                           length (current_playlist st2) = length l0).
    { intros st2 Hn2 Hm2 Hc2 n Hn. rewrite Hn2 in Hn. injection Hn as <-.
      exists l'. rewrite Hm2, lookup_insert_eq, Hc2. split; [reflexivity|].
      apply py_pop_length in Hpop. apply py_pop_length in Hcp. lia. }
    destruct (i <? _); apply Hst; reflexivity || exact Hb.
  - intros n Hn. bc_simpl. destruct (H n Hn) as [l0 [Hl Hlen]]. exists l0.
    split; [|exact Hlen]. rewrite lookup_insert_ne; [exact Hl|]. intros ->. contradiction.
Qed.

Lemma reorder_keeps_bound ok db st pname f t :
  bound_consistent st -> bound_consistent (reorder_playlist ok db st pname f t).2.
Proof.
  rewrite !bound_consistent_iff. intros H. unfold reorder_playlist.
  destruct (playlists st !! pname) as [l|] eqn:Hp; [|exact H].
  destruct (String.eqb pname LIBRARY); [exact H|].
  destruct (negb _); [exact H|].
  destruct (py_move l f t) as [l2|] eqn:Hm; [|exact H].
  assert (Hst1 : forall n,
            current_playlist_name (set_playlists st (<[pname := l2]> (playlists st))) = Some n ->
            exists l0, playlists (set_playlists st (<[pname := l2]> (playlists st))) !! n = Some l0
              /\ length (current_playlist (set_playlists st (<[pname := l2]> (playlists st))))
                 = length l0).
  { intros n Hn. bc_simpl. destruct (H n Hn) as [l0 [Hl Hlen]].
    destruct (decide (n = pname)) as [->|Hne].
    - rewrite Hp in Hl. injection Hl as <-. exists l2.
      rewrite lookup_insert_eq, (py_move_length _ _ _ _ Hm). split; [reflexivity | exact Hlen].
    - exists l0. rewrite lookup_insert_ne by congruence. split; [exact Hl | exact Hlen]. }
  destruct ok; [|exact Hst1]. bc_simpl.
  case_bool_decide as Hb; [|exact Hst1].
  destruct (H pname Hb) as [l0 [Hl Hlen]]. rewrite Hp in Hl. injection Hl as <-.
  destruct (py_move_some_len l (current_playlist st) f t) as [cp' Hcp];
    [symmetry; exact Hlen | rewrite Hm; eauto |].
  rewrite Hcp. intros n Hn. bc_simpl. rewrite Hb in Hn. injection Hn as <-.
  exists l2. rewrite lookup_insert_eq, (py_move_length _ _ _ _ Hcp), (py_move_length _ _ _ _ Hm).
  split; [reflexivity | exact Hlen].
Qed.

Lemma rename_keeps_bound ok db st o nn :
  bound_consistent st -> bound_consistent (rename_playlist ok db st o nn).2.
Proof.
  rewrite !bound_consistent_iff. intros H. unfold rename_playlist.
  destruct (String.eqb o LIBRARY); [exact H|].
  destruct (playlists st !! o) as [l|] eqn:Ho; [|exact H].
  case_bool_decide as Hex; [exact H|].
  destruct (negb ok || name_in_table db nn); [exact H|]. bc_simpl.
  case_bool_decide as Hb; intros n Hn; bc_simpl.
  - injection Hn as <-. destruct (H o Hb) as [l0 [Hl Hlen]]. rewrite Ho in Hl.
    injection Hl as <-. exists l. rewrite lookup_insert_eq. split; [reflexivity | exact Hlen].
  - destruct (H n Hn) as [l0 [Hl Hlen]]. exists l0. split; [|exact Hlen].
    rewrite lookup_insert_ne, lookup_delete_ne; [exact Hl | congruence |].
    intros ->. apply Hex. rewrite Hl. eauto.
Qed.

Lemma play_file_keeps_bound env st p :
  bound_consistent st -> bound_consistent (snd (play_file env st p)).
Proof.
  destruct (play_file_frame env st p) as (_ & Hm & Hc & Hn & _).
  apply bound_consistent_frame; assumption.
Qed.

Lemma play_at_index_keeps_bound env st :
  bound_consistent st -> bound_consistent (snd (play_at_index env st)).
Proof.
  intros H. unfold play_at_index. destruct (py_get _ _); [apply play_file_keeps_bound|]; exact H.
Qed.

Lemma stop_keeps_bound st : bound_consistent (snd (stop st)).
Proof. exact I. Qed.

Ltac bound_frame :=
  repeat match goal with
  | |- bound_consistent (snd (stop _)) => apply stop_keeps_bound
  | |- bound_consistent (snd (play_file _ _ _)) => apply play_file_keeps_bound
  | |- bound_consistent (snd (play_at_index _ _)) => apply play_at_index_keeps_bound
  | |- bound_consistent _ => eapply bound_consistent_frame; [reflexivity..|]
  end.

Lemma next_keeps_bound env st :
  bound_consistent st -> bound_consistent (snd (next env st)).
Proof.
  intros H. unfold next.
  destruct (queue st); [|bound_frame; exact H].
  destruct (current_playlist st); [exact H|].
  destruct (_ <=? _); [destruct (repeat _)|]; cbn [snd]; bound_frame; exact H.
Qed.

Lemma handle_song_end_keeps_bound env st :
  bound_consistent st -> bound_consistent (handle_song_end env st).
Proof.
  intros H. unfold handle_song_end.
  destruct (repeat st);
    [| destruct (current_song st); bound_frame; try exact H |];
    (destruct (queue st); [|bound_frame; exact H];
     destruct (current_playlist st); [bound_frame; exact H|];
     destruct (_ <=? _); [destruct (repeat _)|]; bound_frame; exact H).
Qed.

Lemma previous_keeps_bound env st :
  bound_consistent st -> bound_consistent (previous env st).1.2.
Proof.
  intros H. unfold previous.
  destruct (_ && _).
  - destruct (play_at_index env _) as [r st2] eqn:Hp. cbn.
    change st2 with (snd (r, st2)). rewrite <- Hp. bound_frame. exact H.
  - destruct (2 <=? _)%nat; [|destruct (current_song st); exact H].
    destruct (last _); [|bound_frame; exact H].
    destruct (play_file env _ _) as [r st2] eqn:Hp. cbn.
    change st2 with (snd (r, st2)). rewrite <- Hp. bound_frame. exact H.
Qed.

Lemma play_playlist_keeps_bound env shuffle_fn st nm
    (Hlen : forall l, length (shuffle_fn l) = length l) :
  bound_consistent st -> bound_consistent (snd (play_playlist env shuffle_fn st nm)).
Proof.
  intros H. unfold play_playlist.
  destruct (playlists st !! nm) as [[|s0 l]|] eqn:Hp; [exact H| |exact H].
  set (st2 := if shuffle _ then _ else _).
  assert (H2 : bound_consistent st2).
  { unfold st2, bound_consistent. cbn.
    destruct (shuffle st); cbn; rewrite Hp; [apply Hlen | reflexivity]. }
  destruct (py_get _ _); [bound_frame|]; exact H2.
Qed.

Lemma set_shuffle_keeps_bound shuffle_fn st b
    (Hlen : forall l, length (shuffle_fn l) = length l) :
  bound_consistent st -> bound_consistent (snd (set_shuffle shuffle_fn st b)).
Proof.
  intros H. unfold set_shuffle.
  destruct (_ && _); cbn [snd]; [|bound_frame; exact H].
  revert H. unfold bound_consistent. cbn.
  destruct (current_playlist_name st) as [n|]; [|tauto].
  destruct (playlists st !! n) as [l|]; [|tauto]. intros <-.
  unfold py_slice_to, py_slice_from.
  rewrite length_app, Hlen, length_take, length_drop.
  unfold py_slice_bound. destruct (_ <? 0); lia.
Qed.

(** ** Playback controls *)

(** [pause] on a playing engine answers "Paused" and stops the player;
    [resume] afterwards answers "Resumed" and gives back the engine it
    started from, with only the player's running flag set again. *)
Theorem pause_resume_restores (st : Engine)
    (Hp : is_playing st = true) (Hs : is_Some (current_song st)) :
  let '(r1, st1) := pause st in
  let '(r2, st2) := resume st1 in
  r1 = CPaused /\ is_playing st1 = false /\ running (player st1) = false /\
  r2 = CResumed /\
  st2 = set_player st (mkPlayer (media (player st)) true (audio_volume (player st))).
Proof.
  destruct st as [p cs q m cp cn i h ip v mu sh rp]; cbn in *. subst ip.
  unfold pause, resume; cbn.
  destruct cs as [s|]; [|destruct Hs; discriminate].
  rewrite bool_decide_true by eauto. cbn. repeat split; reflexivity.
Qed.

(** Pausing twice: the second call answers "Already paused" and changes
    nothing; [resume] changes nothing when no song is loaded or when the
    engine is already playing. *)
Theorem pause_resume_idle (st : Engine) :
  pause (snd (pause st)) = (CAlreadyPaused, snd (pause st)) /\
  (current_song st = None -> resume st = (CNothingToResume, st)) /\
  (is_playing st = true -> resume st = (CNothingToResume, st)).
Proof.
  destruct st as [p cs q m cp cn i h ip v mu sh rp]; unfold pause, resume; cbn.
  split; [destruct ip; reflexivity|].
  split; intros H; subst; [destruct ip; reflexivity | reflexivity].
Qed.

(** [remove_from_queue(index)]: an index in [0, len(queue)) removes exactly
    that entry and reports it; any other index (negative ones included,
    although [list.pop] would accept them) answers "Invalid queue index"
    and leaves the engine unchanged. *)
Theorem remove_from_queue_spec (st : Engine) (i : Z) :
  (0 <= i < Z.of_nat (length (queue st)) ->
     exists s, queue st !! Z.to_nat i = Some s /\
       remove_from_queue st i =
         (CRemovedFromQueue s,
          set_queue st (take (Z.to_nat i) (queue st) ++ drop (S (Z.to_nat i)) (queue st)))) /\
  (~ (0 <= i < Z.of_nat (length (queue st))) ->
     remove_from_queue st i = (CInvalidQueueIndex, st)).
Proof.
  unfold remove_from_queue. split.
  - intros Hi. destruct (py_pop_in_range (queue st) i Hi) as [x [Hx Hp]].
    exists x. split; [exact Hx|].
    replace ((0 <=? i) && (i <? Z.of_nat (length (queue st)))) with true
      by (symmetry; apply andb_true_iff; split; [apply Z.leb_le | apply Z.ltb_lt]; lia).
    rewrite Hp. reflexivity.
  - intros Hi.
    replace ((0 <=? i) && (i <? Z.of_nat (length (queue st)))) with false; [reflexivity|].
    symmetry. apply not_true_iff_false. rewrite andb_true_iff, Z.leb_le, Z.ltb_lt. exact Hi.
Qed.

(** The [/volume/up] and [/volume/down] routes move the volume by 10
    within [0, 100], and undo each other away from the bounds. *)
Theorem volume_routes (st : Engine) (Hv : 0 <= volume st <= 100) :
  volume (snd (volume_up st)) = Z.min 100 (volume st + 10) /\
  volume (snd (volume_down st)) = Z.max 0 (volume st - 10) /\
  (volume st <= 90 -> volume (snd (volume_down (snd (volume_up st)))) = volume st) /\
  (10 <= volume st -> volume (snd (volume_up (snd (volume_down st)))) = volume st).
Proof.
  destruct st as [p cs q m cp cn i h ip v mu sh rp]; cbn in Hv.
  unfold volume_up, volume_down, set_volume.
  destruct mu; cbn; repeat split; intros; lia.
Qed.

(** [set_shuffle(True)] with a shuffle that permutes its argument keeps
    the songs up to and including the current one in place, permutes the
    bound list, and keeps the index, the bound name and the playlists. *)
Theorem set_shuffle_keeps_played (shuffle_fn : list Song -> list Song) (st : Engine)
    (Hperm : forall l, shuffle_fn l ≡ₚ l) (Hi : 0 <= playlist_index st) :
  let '(r, st') := set_shuffle shuffle_fn st true in
  r = CShuffle true /\ shuffle st' = true /\
  current_playlist st' ≡ₚ current_playlist st /\
  take (S (Z.to_nat (playlist_index st))) (current_playlist st') =
    take (S (Z.to_nat (playlist_index st))) (current_playlist st) /\
  playlist_index st' = playlist_index st /\
  current_playlist_name st' = current_playlist_name st /\
  playlists st' = playlists st.
Proof.
  destruct st as [p cs q m cp cn i h ip v mu sh rp]; cbn in Hi |- *.
  unfold set_shuffle; cbn.
  case_bool_decide as Hne; cbn; [|repeat split; reflexivity].
  replace i with (Z.of_nat (Z.to_nat i)) by lia.
  set (j := Z.to_nat i).
  unfold py_slice_to, py_slice_from. rewrite py_slice_bound_nonneg.
  replace (Z.to_nat (Z.of_nat j)) with j by lia.
  repeat split.
  - rewrite Hperm. rewrite take_drop. reflexivity.
  - rewrite take_app, length_take.
    destruct (decide (S j <= length cp)%nat) as [Hle|Hgt].
    + replace (Nat.min (Nat.min (S j) (length cp)) (length cp)) with (S j) by lia.
      replace (Nat.min (S j) (length cp)) with (S j) by lia.
      rewrite Nat.sub_diag, take_0, app_nil_r, take_take.
      f_equal. lia.
    + replace (Nat.min (S j) (length cp)) with (length cp) by lia.
      rewrite drop_all.
      assert (Hnil : shuffle_fn [] = []) by (apply Permutation_nil_r; apply Hperm).
      rewrite Hnil, take_nil, app_nil_r, (take_ge cp (length cp)) by lia. reflexivity.
Qed.

(** [previous()] inside a bound playlist with a positive index plays the
    song one position back and decrements the index. *)
Theorem previous_steps_back_in_playlist (env : Env) (st : Engine) (s : Song)
    (Hi : 0 < playlist_index st)
    (Hs : current_playlist st !! Z.to_nat (playlist_index st - 1) = Some s) :
  let '(r, st', t) := previous env st in
  r = CPlayed (fst (play_file env st (file_location s))) /\
  playlist_index st' = playlist_index st - 1 /\ t = None.
Proof.
  unfold previous.
  rewrite bool_decide_true
    by (intros He; rewrite He in Hs; discriminate).
  replace (0 <? playlist_index st) with true by (symmetry; apply Z.ltb_lt; lia).
  cbn [andb]. unfold play_at_index.
  rewrite (py_get_in_range _ _ s) by (cbn; first [lia | exact Hs]).
  destruct (play_file env _ (file_location s)) as [r st2] eqn:Hp.
  split; [|split; [|reflexivity]].
  - f_equal. rewrite <- (play_file_fst env (set_playlist_index st (playlist_index st - 1))).
    rewrite Hp. reflexivity.
  - pose proof (play_file_playlist_index env (set_playlist_index st (playlist_index st - 1))
                  (file_location s)) as Hq.
    rewrite Hp in Hq. exact Hq.
Qed.

(** Outside a playlist (or at its start), [previous()] with at least two
    songs in the history drops the last entry and plays the one before
    it; the history does not grow and the index is unchanged. *)
Theorem previous_steps_back_in_history (env : Env) (st : Engine) (h : list Song) (x y : Song)
    (Hnb : current_playlist st = [] \/ playlist_index st <= 0)
    (Hh : history st = h ++ [x; y]) :
  let '(r, st', t) := previous env st in
  r = CPlayed (fst (play_file env st (file_location x))) /\
  (length (history st') <= length (history st))%nat /\
  playlist_index st' = playlist_index st /\ t = None.
Proof.
  unfold previous.
  replace (bool_decide (current_playlist st <> []) && (0 <? playlist_index st)) with false
    by (symmetry; apply andb_false_iff; destruct Hnb as [He|Hle];
        [left; apply bool_decide_false; tauto | right; apply Z.ltb_ge; lia]).
  rewrite Hh, length_app. cbn [length].
  replace ((2 <=? length h + 2)%nat) with true by (symmetry; apply Nat.leb_le; lia).
  replace (h ++ [x; y]) with ((h ++ [x]) ++ [y]) by (rewrite <- app_assoc; reflexivity).
  rewrite removelast_last, last_snoc.
  destruct (play_file env _ (file_location x)) as [r st2] eqn:Hp.
  split; [|split; [|split]].
  - f_equal. rewrite <- (play_file_fst env (set_history st (h ++ [x]))), Hp. reflexivity.
  - pose proof (play_file_history_length env (set_history st (h ++ [x])) (file_location x)) as Hl.
    rewrite Hp in Hl. cbn in Hl. rewrite length_app in Hl. cbn in Hl. lia.
  - pose proof (play_file_playlist_index env (set_history st (h ++ [x])) (file_location x)) as Hq.
    rewrite Hp in Hq. exact Hq.
  - reflexivity.
Qed.

(** The queue is first in, first out: after [add_to_queue] of a found
    song, [next()] plays the head of the old queue (or the added song if
    the queue was empty) and leaves the rest, the added song last. *)
Theorem add_to_queue_fifo (env : Env) (st : Engine) (song_name : string) (s : Song)
    (Hs : search_song env song_name = Some s) :
  let '(r, st1) := add_to_queue env st song_name in
  r = CAddedToQueue s /\
  match queue st with
  | [] => fst (next env st1) = fst (play_file env st (file_location s)) /\
          queue (snd (next env st1)) = []
  | h :: t => fst (next env st1) = fst (play_file env st (file_location h)) /\
              queue (snd (next env st1)) = t ++ [s]
  end.
Proof.
  unfold add_to_queue. rewrite Hs. split; [reflexivity|].
  unfold next. cbn [queue set_queue].
  destruct (queue st) as [|h t]; cbn [app].
  - split; [apply play_file_fst|].
    destruct (play_file_frame env (set_queue (set_queue st [s]) []) (file_location s)) as [Hq _].
    rewrite Hq. reflexivity.
  - split; [apply play_file_fst|].
    destruct (play_file_frame env (set_queue (set_queue st (h :: t ++ [s])) (t ++ [s]))
                (file_location h)) as [Hq _].
    rewrite Hq. reflexivity.
Qed.

(** [set_repeat("all")] at the last song of a playlist with an empty
    queue makes [next()] wrap to the first song and index 0. *)
Theorem set_repeat_all_wraps (env : Env) (st : Engine) (s0 : Song)
    (Hq : queue st = []) (Hend : Z.of_nat (length (current_playlist st)) <= playlist_index st + 1)
    (H0 : current_playlist st !! 0%nat = Some s0) :
  let '(r, st1) := set_repeat st "all" in
  r = CRepeat All /\
  fst (next env st1) = fst (play_file env st (file_location s0)) /\
  playlist_index (snd (next env st1)) = 0.
Proof.
  unfold set_repeat, repeat_of_string. cbn -[next]. split; [reflexivity|].
  unfold next. cbn [queue set_repeat_field current_playlist set_playlist_index playlist_index repeat].
  rewrite Hq. destruct (current_playlist st) as [|c cs] eqn:Hc; [discriminate|].
  rewrite <- Hc in *.
  replace (Z.of_nat (length (current_playlist st)) <=? playlist_index st + 1) with true
    by (symmetry; apply Z.leb_le; lia).
  unfold play_at_index. cbn [current_playlist set_playlist_index playlist_index].
  rewrite (py_get_in_range _ 0 s0) by (first [lia | exact H0]).
  split; [apply play_file_fst|].
  match goal with |- playlist_index (snd (play_file env ?x ?p)) = _ =>
    destruct (play_file_frame env x p) as (_ & _ & _ & _ & Hi) end.
  rewrite Hi. reflexivity.
Qed.

(** ** The bound copy of the current playlist *)

(** When the bound copy has the length of the stored playlist it was
    loaded from, every playlist edit (create, delete, add, remove,
    reorder, rename), whether its storage statements succeed or not,
    keeps it so. *)
Theorem playlist_edits_keep_bound (env : Env) (ok : bool) (db : Db) (st : Engine)
    (H : bound_consistent st) :
  (forall nm songs, bound_consistent (create_playlist ok db st nm songs).2) /\
  (forall nm, bound_consistent (delete_playlist ok db st nm).2) /\
  (forall pname sn, bound_consistent (add_to_playlist env ok db st pname sn).2) /\
  (forall pname i, bound_consistent (remove_from_playlist ok db st pname i).2) /\
  (forall pname f t, bound_consistent (reorder_playlist ok db st pname f t).2) /\
  (forall o nn, bound_consistent (rename_playlist ok db st o nn).2).
Proof.
  refine (conj _ (conj _ (conj _ (conj _ (conj _ _))))); intros.
  - apply create_keeps_bound; exact H.
  - apply delete_keeps_bound; exact H.
  - apply add_keeps_bound; exact H.
  - apply remove_keeps_bound; exact H.
  - apply reorder_keeps_bound; exact H.
  - apply rename_keeps_bound; exact H.
Qed.

(** The same length agreement survives every playback operation:
    [play_playlist] and [set_shuffle] (with a shuffle that keeps
    lengths), [stop], [next], [previous] and the end-of-song handler. *)
Theorem playback_keeps_bound (env : Env) (shuffle_fn : list Song -> list Song) (st : Engine)
    (Hlen : forall l, length (shuffle_fn l) = length l) (H : bound_consistent st) :
  (forall nm, bound_consistent (snd (play_playlist env shuffle_fn st nm))) /\
  (forall b, bound_consistent (snd (set_shuffle shuffle_fn st b))) /\
  bound_consistent (snd (stop st)) /\
  bound_consistent (snd (next env st)) /\
  bound_consistent (previous env st).1.2 /\
  bound_consistent (handle_song_end env st).
Proof.
  refine (conj _ (conj _ (conj _ (conj _ (conj _ _))))); intros.
  - apply play_playlist_keeps_bound; assumption.
  - apply set_shuffle_keeps_bound; assumption.
  - apply stop_keeps_bound.
  - apply next_keeps_bound; exact H.
  - apply previous_keeps_bound; exact H.
  - apply handle_song_end_keeps_bound; exact H.
Qed.

(** With the bound copy in agreement, the caught [IndexError] branches of
    [remove_from_playlist] and [reorder_playlist] are unreachable: a valid
    index removes (and reports) the song at it, and valid indices reorder. *)
Theorem bound_copy_edits_succeed (db : Db) (st : Engine) (pname : string) (l : list Song)
    (H : bound_consistent st) (Hl : playlists st !! pname = Some l)
    (Hlib : pname <> LIBRARY) :
  (forall i, 0 <= i < Z.of_nat (length l) ->
     exists s, l !! Z.to_nat i = Some s /\
               (remove_from_playlist true db st pname i).1.1 = RSongRemoved s) /\
  (forall f t, 0 <= f < Z.of_nat (length l) -> 0 <= t < Z.of_nat (length l) ->
     (reorder_playlist true db st pname f t).1.1 = RPlaylistReordered).
Proof.
  rewrite bound_consistent_iff in H. split.
  - intros i Hi. destruct (py_pop_in_range l i Hi) as [x [Hx Hp]].
    exists x. split; [exact Hx|].
    unfold remove_from_playlist. rewrite Hl.
    replace (String.eqb pname LIBRARY) with false
      by (symmetry; apply String.eqb_neq; exact Hlib).
    replace ((0 <=? i) && (i <? Z.of_nat (length l))) with true
      by (symmetry; apply andb_true_iff; split; [apply Z.leb_le | apply Z.ltb_lt]; lia).
    cbn [negb]. rewrite Hp. cbn [negb].
    case_bool_decide as Hb; [|reflexivity]. bc_simpl.
    destruct (H pname Hb) as [l0 [Hl0 Hlen]]. rewrite Hl in Hl0. injection Hl0 as <-.
    destruct (py_pop_some_len l (current_playlist st) i) as [[y cp'] Hcp];
      [symmetry; exact Hlen | rewrite Hp; eauto |].
    rewrite Hcp. destruct (i <? _); reflexivity.
  - intros f t Hf Ht.
    destruct (reorder_playlist_step db st pname l f t Hl Hlib Hf Ht) as [l1 [_ Hr]].
    + intros Hn. destruct (H pname Hn) as [l0 [Hl0 Hlen]].
      rewrite Hl in Hl0. injection Hl0 as <-. exact Hlen.
    + destruct (reorder_playlist true db st pname f t) as [[r db1] st1].
      destruct Hr as [-> _]. reflexivity.
Qed.

Lemma enum_rows_position pid k l r :
  r ∈ enum_rows pid k l -> k <= ps_position r.
Proof.
  revert k. induction l as [|s l IH]; intros k Hr; cbn in Hr;
    [apply elem_of_nil in Hr; contradiction|].
  apply elem_of_cons in Hr as [->|Hr]; [cbn; lia|]. apply IH in Hr. lia.
Qed.

Lemma enum_rows_position_inj pid k l r1 r2 :
  r1 ∈ enum_rows pid k l -> r2 ∈ enum_rows pid k l ->
  ps_position r1 = ps_position r2 -> r1 = r2.
Proof.
  revert k. induction l as [|s l IH]; intros k H1 H2 Hp; cbn in H1, H2;
    [apply elem_of_nil in H1; contradiction|].
  apply elem_of_cons in H1 as [->|H1]; apply elem_of_cons in H2 as [->|H2];
    [reflexivity | | |eauto].
  - apply enum_rows_position in H2. cbn in Hp. lia.
  - apply enum_rows_position in H1. cbn in Hp. lia.
Qed.

Lemma enum_rows_sorted pid k l : StronglySorted position_le (enum_rows pid k l).
Proof.
  revert k. induction l as [|s l IH]; intros k; cbn; constructor; [apply IH|].
  apply Forall_forall. intros r Hr. apply enum_rows_position in Hr. unfold position_le. cbn. lia.
Qed.

Lemma enum_rows_songs pid k l : map ps_song (enum_rows pid k l) = l.
Proof. revert k. induction l as [|s l IH]; intros k; cbn; [reflexivity|]. rewrite IH. reflexivity. Qed.

Lemma enum_rows_app pid k l1 l2 :
  enum_rows pid k (l1 ++ l2) = enum_rows pid k l1 ++ enum_rows pid (k + Z.of_nat (length l1)) l2.
Proof.
  revert k. induction l1 as [|s l1 IH]; intros k; cbn; [rewrite Z.add_0_r; reflexivity|].
  rewrite IH. do 3 f_equal. lia.
Qed.

Lemma rows_of_enum_rows pid k l : rows_of pid (enum_rows pid k l) = enum_rows pid k l.
Proof.
  revert k. induction l as [|s l IH]; intros k; cbn; [reflexivity|].
  rewrite Z.eqb_refl. f_equal. apply IH.
Qed.

Lemma rows_of_enum_rows_other q pid k l : q <> pid -> rows_of q (enum_rows pid k l) = [].
Proof.
  intros Hq. revert k. induction l as [|s l IH]; intros k; cbn; [reflexivity|].
  replace (pid =? q) with false by (symmetry; apply Z.eqb_neq; congruence). apply IH.
Qed.

Lemma rows_of_app q rows1 rows2 : rows_of q (rows1 ++ rows2) = rows_of q rows1 ++ rows_of q rows2.
Proof. unfold rows_of. apply List.filter_app. Qed.

Lemma select_songs_enum db pid k l :
  rows_of pid (tbl_playlist_songs db) = enum_rows pid k l -> select_songs db pid = l.
Proof.
  intros Hr. unfold select_songs. rewrite Hr.
  replace (merge_sort position_le (enum_rows pid k l)) with (enum_rows pid k l);
    [apply enum_rows_songs|].
  symmetry. apply (StronglySorted_unique_strong position_le).
  - intros x1 x2 H1 H2 Hle1 Hle2.
    rewrite (merge_sort_Permutation position_le (enum_rows pid k l)) in H1.
    apply (enum_rows_position_inj pid k l); [exact H1 | exact H2 |].
    unfold position_le in *; lia.
  - apply (StronglySorted_merge_sort position_le).
  - apply enum_rows_sorted.
  - apply merge_sort_Permutation.
Qed.

(** What [_load_saved_playlists] stores under a name: the songs of the
    last table row of that name, else the entry it had before. *)
Lemma load_saved_playlists_lookup db m k :
  load_saved_playlists db m !! k =
    match last (List.filter (fun r => String.eqb (pl_name r) k) (tbl_playlists db)) with
    | Some r => Some (select_songs db (pl_id r))
    | None => m !! k
    end.
Proof.
  unfold load_saved_playlists.
  induction (tbl_playlists db) as [|r rows IH] using rev_ind; [reflexivity|].
  rewrite fold_left_app, List.filter_app. cbn [fold_left List.filter].
  destruct (String.eqb (pl_name r) k) eqn:Hk.
  - apply String.eqb_eq in Hk. subst k. rewrite lookup_insert_eq, last_snoc. reflexivity.
  - apply String.eqb_neq in Hk. rewrite lookup_insert_ne by exact Hk.
    rewrite app_nil_r. exact IH.
Qed.

(** ** The stored tables against the in-memory playlists *)

(** [add_to_playlist] on a playlist whose stored rows are its songs at
    positions 0, 1, ...: either the song is not found and nothing changes,
    or the song is appended in memory, its row is stored at the next
    position, the rows read back ([ORDER BY position]) give the new list,
    and the rows of other playlists are untouched. *)
Theorem add_to_playlist_store_sync (env : Env) (db : Db) (st : Engine)
    (pname sn : string) (l : list Song) (pid : Z)
    (Hl : playlists st !! pname = Some l) (Hpid : select_playlist_id db pname = Some pid)
    (Hsync : rows_of pid (tbl_playlist_songs db) = enum_rows pid 0 l) :
  let '(r, db', st') := add_to_playlist env true db st pname sn in
  (r = RError SongNotFound /\ db' = db /\ st' = st) \/
  (exists s, r = RSongAdded s /\ playlists st' !! pname = Some (l ++ [s]) /\
     rows_of pid (tbl_playlist_songs db') = enum_rows pid 0 (l ++ [s]) /\
     select_songs db' pid = l ++ [s] /\
     (forall q, q <> pid -> rows_of q (tbl_playlist_songs db') = rows_of q (tbl_playlist_songs db))).
Proof.
  unfold add_to_playlist. rewrite Hl.
  destruct (match search_song env sn with Some s => Some s | None => _ end) as [s|];
    [|left; repeat split].
  right. exists s. rewrite Hpid. cbn [negb].
  assert (Hrows : rows_of pid (tbl_playlist_songs db ++ [mkPsRow pid s (Z.of_nat (length l))])
                  = enum_rows pid 0 (l ++ [s])).
  { rewrite rows_of_app, Hsync, enum_rows_app. cbn. rewrite Z.eqb_refl. reflexivity. }
  case_bool_decide; cbn [fst snd playlists set_playlists set_current_playlist];
    (split; [reflexivity|]); (split; [apply lookup_insert_eq|]);
    cbn [tbl_playlist_songs set_playlist_songs];
    (split; [exact Hrows|]);
    (split; [apply (select_songs_enum _ _ 0); exact Hrows|]);
    intros q Hq; rewrite rows_of_app; cbn;
    replace (pid =? q) with false by (symmetry; apply Z.eqb_neq; congruence);
    apply app_nil_r.
Qed.

Lemma rows_of_delete_playlist_rows q pid rows :
  rows_of q (delete_playlist_rows pid rows) = if q =? pid then [] else rows_of q rows.
Proof.
  unfold rows_of, delete_playlist_rows.
  induction rows as [|r rows IH]; cbn [List.filter]; [destruct (q =? pid); reflexivity|].
  destruct (ps_playlist r =? pid) eqn:Hr; cbn [negb List.filter].
  - rewrite IH. destruct (q =? pid) eqn:Hq; [reflexivity|].
    apply Z.eqb_eq in Hr. apply Z.eqb_neq in Hq.
    replace (ps_playlist r =? q) with false by (symmetry; apply Z.eqb_neq; lia). reflexivity.
  - destruct (q =? pid) eqn:Hq.
    + apply Z.eqb_eq in Hq. apply Z.eqb_neq in Hr.
      replace (ps_playlist r =? q) with false by (symmetry; apply Z.eqb_neq; lia).
      rewrite IH. reflexivity.
    + destruct (ps_playlist r =? q); rewrite IH; reflexivity.
Qed.

(** [reorder_playlist] with valid indices rewrites the stored rows of the
    playlist as the reordered list at positions 0, 1, ..., whatever the
    rows were before: reading them back gives the list held in memory. *)
Theorem reorder_playlist_store_sync (db : Db) (st : Engine) (pname : string)
    (l : list Song) (f t pid : Z)
    (Hl : playlists st !! pname = Some l) (Hlib : pname <> LIBRARY)
    (Hf : 0 <= f < Z.of_nat (length l)) (Ht : 0 <= t < Z.of_nat (length l))
    (Hpid : select_playlist_id db pname = Some pid) :
  let '(r, db', st') := reorder_playlist true db st pname f t in
  exists l2, py_move l f t = Some l2 /\ playlists st' !! pname = Some l2 /\
    rows_of pid (tbl_playlist_songs db') = enum_rows pid 0 l2 /\
    select_songs db' pid = l2 /\
    (forall q, q <> pid -> rows_of q (tbl_playlist_songs db') = rows_of q (tbl_playlist_songs db)).
Proof.
  destruct (py_move_in_range l f t Hf Ht) as [x [_ Hm0]].
  destruct (py_move l f t) as [l2|] eqn:Hm; [|discriminate]. clear Hm0 x.
  unfold reorder_playlist. rewrite Hl.
  replace (String.eqb pname LIBRARY) with false
    by (symmetry; apply String.eqb_neq; exact Hlib).
  replace ((0 <=? f) && (f <? Z.of_nat (length l)) && (0 <=? t) && (t <? Z.of_nat (length l)))
    with true by (symmetry; repeat rewrite andb_true_iff;
                  repeat split; (apply Z.leb_le || apply Z.ltb_lt); lia).
  cbn [negb]. rewrite Hm, Hpid.
  set (rows' := delete_playlist_rows pid (tbl_playlist_songs db) ++ enum_rows pid 0 l2).
  assert (Hrows : rows_of pid rows' = enum_rows pid 0 l2).
  { unfold rows'. rewrite rows_of_app, rows_of_enum_rows, rows_of_delete_playlist_rows, Z.eqb_refl.
    reflexivity. }
  assert (Hother : forall q, q <> pid -> rows_of q rows' = rows_of q (tbl_playlist_songs db)).
  { intros q Hq. unfold rows'.
    rewrite rows_of_app, rows_of_enum_rows_other, rows_of_delete_playlist_rows by exact Hq.
    replace (q =? pid) with false by (symmetry; apply Z.eqb_neq; exact Hq).
    apply app_nil_r. }
  assert (Hfin : forall st' : Engine, playlists st' = <[pname := l2]> (playlists st) ->
    exists l3, Some l2 = Some l3 /\ playlists st' !! pname = Some l3 /\
      rows_of pid (tbl_playlist_songs (set_playlist_songs db rows')) = enum_rows pid 0 l3 /\
      select_songs (set_playlist_songs db rows') pid = l3 /\
      (forall q, q <> pid -> rows_of q (tbl_playlist_songs (set_playlist_songs db rows')) =
                             rows_of q (tbl_playlist_songs db))).
  { intros st' Hst'. exists l2. rewrite Hst', lookup_insert_eq.
    split; [reflexivity|]. split; [reflexivity|]. split; [exact Hrows|].
    split; [apply (select_songs_enum _ _ 0); exact Hrows | exact Hother]. }
  case_bool_decide;
    [destruct (py_move (current_playlist _) f t)|];
    apply Hfin; reflexivity.
Qed.

Lemma last_map {A B} (f : A -> B) (l : list A) : last (map f l) = option_map f (last l).
Proof.
  induction l as [|x l IH]; [reflexivity|]. cbn [map]. rewrite !last_cons, IH.
  destruct (last l); reflexivity.
Qed.

Lemma rows_of_none q rows : (forall r, r ∈ rows -> ps_playlist r <> q) -> rows_of q rows = [].
Proof.
  intros H. induction rows as [|r rows IH]; [reflexivity|]. unfold rows_of in *. cbn.
  replace (ps_playlist r =? q) with false
    by (symmetry; apply Z.eqb_neq; apply H; apply elem_of_cons; left; reflexivity).
  apply IH. intros r' Hr'. apply H. apply elem_of_cons. right. exact Hr'.
Qed.

Lemma select_songs_snoc_other db rows' q :
  rows_of q rows' = [] ->
  select_songs (mkDb (tbl_playlists db) (tbl_playlist_songs db ++ rows') (pl_seq db)) q
  = select_songs db q.
Proof.
  intros H. unfold select_songs. cbn [tbl_playlist_songs].
  rewrite rows_of_app, H, app_nil_r. reflexivity.
Qed.

(** A new playlist created while the stored ids are below the id counter
    is read back by [_load_saved_playlists] with its songs in order, and
    the reload of every other name is unchanged. *)
Theorem create_playlist_reload (db : Db) (st : Engine) (nm : string) (songs : list Song)
    (m : gmap string (list Song))
    (Hnew : playlists st !! nm = None) (Hfree : name_in_table db nm = false)
    (Hids : Forall (fun r => pl_id r <= pl_seq db) (tbl_playlists db))
    (Hrows : Forall (fun r => ps_playlist r <= pl_seq db) (tbl_playlist_songs db)) :
  let '(r, db', st') := create_playlist true db st nm songs in
  r = RPlaylistCreated /\ playlists st' !! nm = Some songs /\
  load_saved_playlists db' m !! nm = Some songs /\
  (forall k, k <> nm -> load_saved_playlists db' m !! k = load_saved_playlists db m !! k).
Proof.
  rewrite Forall_forall in Hids. rewrite Forall_forall in Hrows.
  unfold create_playlist. rewrite Hnew, Hfree. cbn [negb orb].
  set (pid := pl_seq db + 1).
  assert (Hold : rows_of pid (tbl_playlist_songs db) = []).
  { apply rows_of_none. intros r Hr. apply Hrows in Hr. unfold pid. lia. }
  split; [reflexivity|]. split; [apply lookup_insert_eq|].
  split.
  - rewrite load_saved_playlists_lookup. cbn [tbl_playlists].
    rewrite List.filter_app. cbn [List.filter pl_name]. rewrite String.eqb_refl, last_snoc.
    cbn [pl_id]. f_equal. apply (select_songs_enum _ _ 0). cbn [tbl_playlist_songs].
    rewrite rows_of_app, Hold, rows_of_enum_rows. reflexivity.
  - intros k Hk. rewrite !load_saved_playlists_lookup. cbn [tbl_playlists].
    rewrite List.filter_app. cbn [List.filter pl_name].
    replace (String.eqb nm k) with false by (symmetry; apply String.eqb_neq; congruence).
    rewrite app_nil_r.
    destruct (last (List.filter _ (tbl_playlists db))) as [r|] eqn:Hlast; [|reflexivity].
    apply last_Some_elem_of in Hlast. apply list_elem_of_In, filter_In in Hlast as [Hin _].
    apply list_elem_of_In, Hids in Hin.
    f_equal. unfold select_songs. cbn [tbl_playlist_songs].
    rewrite rows_of_app, rows_of_enum_rows_other, app_nil_r by (unfold pid; lia).
    reflexivity.
Qed.

Lemma filter_name_filter_out (k nm : string) (rows : list PlRow) :
  k <> nm ->
  List.filter (fun r => String.eqb (pl_name r) k)
    (List.filter (fun r => negb (String.eqb (pl_name r) nm)) rows)
  = List.filter (fun r => String.eqb (pl_name r) k) rows.
Proof.
  intros Hk. induction rows as [|r rows IH]; [reflexivity|]. cbn [List.filter].
  destruct (String.eqb (pl_name r) nm) eqn:Hr; cbn [negb List.filter].
  - apply String.eqb_eq in Hr. rewrite Hr.
    replace (String.eqb nm k) with false by (symmetry; apply String.eqb_neq; congruence).
    exact IH.
  - destruct (String.eqb (pl_name r) k); rewrite IH; reflexivity.
Qed.

Lemma filter_name_filter_same (nm : string) (rows : list PlRow) :
  List.filter (fun r => String.eqb (pl_name r) nm)
    (List.filter (fun r => negb (String.eqb (pl_name r) nm)) rows) = [].
Proof.
  induction rows as [|r rows IH]; [reflexivity|]. cbn [List.filter].
  destruct (String.eqb (pl_name r) nm) eqn:Hr; cbn [negb List.filter]; [exact IH|].
  rewrite Hr. exact IH.
Qed.

(** After a successful [delete_playlist], the name is gone from memory and
    a reload no longer finds it in the table; other names reload as
    before. The song rows of the deleted playlist are left in the table
    (the code deletes only from [playlists]). *)
Theorem delete_playlist_reload (db : Db) (st : Engine) (nm : string)
    (m : gmap string (list Song)) :
  let '(r, db', st') := delete_playlist true db st nm in
  r = RPlaylistDeleted ->
  playlists st' !! nm = None /\
  load_saved_playlists db' m !! nm = m !! nm /\
  (forall k, k <> nm -> load_saved_playlists db' m !! k = load_saved_playlists db m !! k) /\
  tbl_playlist_songs db' = tbl_playlist_songs db.
Proof.
  unfold delete_playlist.
  destruct (String.eqb nm LIBRARY); [discriminate|].
  destruct (playlists st !! nm); [|discriminate]. cbn [negb]. intros _.
  split; [case_bool_decide; apply lookup_delete_eq|].
  split; [|split; [|reflexivity]].
  - rewrite load_saved_playlists_lookup. cbn [tbl_playlists].
    rewrite filter_name_filter_same. reflexivity.
  - intros k Hk. rewrite !load_saved_playlists_lookup. cbn [tbl_playlists].
    rewrite filter_name_filter_out by exact Hk. reflexivity.
Qed.

Lemma filter_rename_new (o nn : string) (rows : list PlRow) :
  existsb (fun r => String.eqb (pl_name r) nn) rows = false ->
  List.filter (fun r => String.eqb (pl_name r) nn) (map (rename_row o nn) rows)
  = map (rename_row o nn) (List.filter (fun r => String.eqb (pl_name r) o) rows).
Proof.
  induction rows as [|r rows IH]; [reflexivity|]. cbn [existsb map List.filter].
  intros [Hr Hrows]%orb_false_iff.
  destruct (String.eqb (pl_name r) o) eqn:Ho.
  - replace (rename_row o nn r) with (mkPlRow (pl_id r) nn)
      by (unfold rename_row; rewrite Ho; reflexivity).
    cbn [pl_name]. rewrite String.eqb_refl, IH by exact Hrows. cbn [map]. f_equal.
    unfold rename_row. rewrite Ho. reflexivity.
  - replace (rename_row o nn r) with r by (unfold rename_row; rewrite Ho; reflexivity).
    rewrite Hr. apply IH. exact Hrows.
Qed.

Lemma filter_rename_old (o nn : string) (rows : list PlRow) :
  nn <> o ->
  List.filter (fun r => String.eqb (pl_name r) o) (map (rename_row o nn) rows) = [].
Proof.
  intros Hne. induction rows as [|r rows IH]; [reflexivity|]. cbn [map List.filter].
  destruct (String.eqb (pl_name r) o) eqn:Ho.
  - replace (rename_row o nn r) with (mkPlRow (pl_id r) nn)
      by (unfold rename_row; rewrite Ho; reflexivity). cbn [pl_name].
    replace (String.eqb nn o) with false by (symmetry; apply String.eqb_neq; exact Hne).
    exact IH.
  - replace (rename_row o nn r) with r by (unfold rename_row; rewrite Ho; reflexivity).
    rewrite Ho. exact IH.
Qed.

Lemma filter_rename_other (o nn k : string) (rows : list PlRow) :
  k <> o -> k <> nn ->
  List.filter (fun r => String.eqb (pl_name r) k) (map (rename_row o nn) rows)
  = List.filter (fun r => String.eqb (pl_name r) k) rows.
Proof.
  intros Hko Hkn. induction rows as [|r rows IH]; [reflexivity|]. cbn [map List.filter].
  destruct (String.eqb (pl_name r) o) eqn:Ho.
  - replace (rename_row o nn r) with (mkPlRow (pl_id r) nn)
      by (unfold rename_row; rewrite Ho; reflexivity). cbn [pl_name].
    apply String.eqb_eq in Ho.
    replace (String.eqb nn k) with false by (symmetry; apply String.eqb_neq; congruence).
    replace (String.eqb (pl_name r) k) with false by (symmetry; apply String.eqb_neq; congruence).
    exact IH.
  - replace (rename_row o nn r) with r by (unfold rename_row; rewrite Ho; reflexivity).
    destruct (String.eqb (pl_name r) k); rewrite IH; reflexivity.
Qed.

(** After a successful [rename_playlist] of a stored playlist, the new
    name holds the old name's songs in memory and on reload, the old name
    is gone from both, and other names reload as before. *)
Theorem rename_playlist_reload (db : Db) (st : Engine) (o nn : string)
    (m : gmap string (list Song)) (Hin : name_in_table db o = true) :
  let '(r, db', st') := rename_playlist true db st o nn in
  r = RPlaylistRenamed ->
  playlists st' !! nn = playlists st !! o /\ playlists st' !! o = None /\
  load_saved_playlists db' m !! nn = load_saved_playlists db m !! o /\
  load_saved_playlists db' m !! o = m !! o /\
  (forall k, k <> o -> k <> nn ->
     load_saved_playlists db' m !! k = load_saved_playlists db m !! k).
Proof.
  unfold rename_playlist.
  destruct (String.eqb o LIBRARY); [discriminate|].
  destruct (playlists st !! o) as [l|] eqn:Ho; [|discriminate].
  case_bool_decide as Hex; [discriminate|].
  destruct (negb true || name_in_table db nn) eqn:Hfree; [discriminate|].
  cbn [negb orb] in Hfree. intros _.
  assert (Hne : nn <> o) by (intros ->; apply Hex; rewrite Ho; eauto).
  change (fun r => if String.eqb (pl_name r) o then mkPlRow (pl_id r) nn else r)
    with (rename_row o nn).
  assert (Hst : forall st' : Engine,
            playlists st' = <[nn := l]> (delete o (playlists st)) ->
            playlists st' !! nn = Some l /\ playlists st' !! o = None).
  { intros st' ->. rewrite lookup_insert_eq, lookup_insert_ne, lookup_delete_eq by congruence.
    split; reflexivity. }
  split; [|split]; [case_bool_decide; apply Hst; reflexivity ..|].
  rewrite !load_saved_playlists_lookup. cbn [tbl_playlists].
  split; [|split].
  - rewrite filter_rename_new by exact Hfree. rewrite last_map.
    unfold name_in_table in Hin.
    destruct (last (List.filter (fun r => String.eqb (pl_name r) o) (tbl_playlists db)))
      as [r|] eqn:Hlast.
    + cbn [option_map]. unfold rename_row. destruct (String.eqb (pl_name r) o); reflexivity.
    + exfalso. apply last_None in Hlast. apply existsb_exists in Hin as [r [Hr Hro]].
      assert (Hf : In r (List.filter (fun r => String.eqb (pl_name r) o) (tbl_playlists db)))
        by (apply filter_In; split; assumption).
      rewrite Hlast in Hf. contradiction.
  - rewrite filter_rename_old by exact Hne. reflexivity.
  - intros k Hko Hkn. rewrite !load_saved_playlists_lookup. cbn [tbl_playlists].
    rewrite filter_rename_other by assumption. reflexivity.
Qed.


Lemma min_id_of_name_Some rows n k :
  min_id_of_name rows n = Some k ->
  exists r, r ∈ rows /\ m_name r = n /\ m_id r = k /\
    forall r', r' ∈ rows -> m_name r' = n -> k <= m_id r'.
Proof.
  revert k. induction rows as [|r rows IH]; intros k H; cbn in H; [discriminate|].
  destruct (String.eqb (m_name r) n) eqn:Hn.
  - apply String.eqb_eq in Hn.
    destruct (min_id_of_name rows n) as [k'|] eqn:Hm; injection H as <-.
    + destruct (IH k' eq_refl) as (r0 & Hr0 & Hn0 & Hk0 & Hmin).
      destruct (Z.min_spec (m_id r) k') as [[Hlt ->]|[Hge ->]].
      * exists r. split; [apply elem_of_cons; left; reflexivity|]. split; [exact Hn|].
        split; [reflexivity|]. intros r' Hr' Hn'. apply elem_of_cons in Hr' as [->|Hr']; [lia|].
        specialize (Hmin r' Hr' Hn'). lia.
      * exists r0. split; [apply elem_of_cons; right; exact Hr0|]. split; [exact Hn0|].
        split; [exact Hk0|]. intros r' Hr' Hn'. apply elem_of_cons in Hr' as [->|Hr']; [lia|].
        apply Hmin; assumption.
    + exists r. split; [apply elem_of_cons; left; reflexivity|]. split; [exact Hn|].
      split; [reflexivity|]. intros r' Hr' Hn'. apply elem_of_cons in Hr' as [->|Hr']; [lia|].
      exfalso. clear IH. induction rows as [|r1 rows IH1]; [apply elem_of_nil in Hr'; exact Hr'|].
      cbn in Hm. destruct (String.eqb (m_name r1) n) eqn:H1; [destruct (min_id_of_name rows n); discriminate|].
      apply elem_of_cons in Hr' as [->|Hr']; [apply String.eqb_neq in H1; contradiction|].
      apply IH1; assumption.
  - destruct (IH k H) as (r0 & Hr0 & Hn0 & Hk0 & Hmin).
    exists r0. split; [apply elem_of_cons; right; exact Hr0|]. split; [exact Hn0|].
    split; [exact Hk0|]. intros r' Hr' Hn'. apply elem_of_cons in Hr' as [->|Hr'].
    + apply String.eqb_neq in Hn. contradiction.
    + apply Hmin; assumption.
Qed.

Lemma min_id_of_name_is_Some rows r : r ∈ rows -> is_Some (min_id_of_name rows (m_name r)).
Proof.
  induction rows as [|r1 rows IH]; intros Hr; [apply elem_of_nil in Hr; contradiction|].
  cbn. destruct (String.eqb (m_name r1) (m_name r)) eqn:He; [eauto|].
  apply elem_of_cons in Hr as [->|Hr]; [apply String.eqb_neq in He; contradiction|]. auto.
Qed.

Lemma NoDup_map_eq {A B} (f : A -> B) (l : list A) x y :
  NoDup (map f l) -> x ∈ l -> y ∈ l -> f x = f y -> x = y.
Proof.
  induction l as [|a l IH]; intros Hnd Hx Hy Hf; [apply elem_of_nil in Hx; contradiction|].
  cbn in Hnd. apply NoDup_cons in Hnd as [Ha Hnd].
  apply elem_of_cons in Hx as [->|Hx]; apply elem_of_cons in Hy as [->|Hy]; [reflexivity | | |auto].
  - exfalso. apply Ha. rewrite Hf. apply list_elem_of_In, in_map, list_elem_of_In. exact Hy.
  - exfalso. apply Ha. rewrite <- Hf. apply list_elem_of_In, in_map, list_elem_of_In. exact Hx.
Qed.

Lemma NoDup_map_inj_on {A B} (f : A -> B) (l : list A) :
  NoDup l -> (forall x y, x ∈ l -> y ∈ l -> f x = f y -> x = y) -> NoDup (map f l).
Proof.
  induction 1 as [|a l Ha Hnd IH]; intros Hinj; cbn; constructor.
  - intros Hin. apply list_elem_of_In, in_map_iff in Hin as (b & Hb & Hbin).
    assert (b = a) as -> by (apply Hinj; [apply elem_of_cons; right; apply list_elem_of_In; exact Hbin
                                         | apply elem_of_cons; left; reflexivity | exact Hb]).
    apply Ha, list_elem_of_In. exact Hbin.
  - apply IH. intros x y Hx Hy. apply Hinj; apply elem_of_cons; right; assumption.
Qed.

Lemma NoDup_map_filter {A B} (f : A -> B) (p : A -> bool) (l : list A) :
  NoDup (map f l) -> NoDup (map f (List.filter p l)).
Proof.
  induction l as [|a l IH]; intros Hnd; cbn; [constructor|].
  cbn in Hnd. apply NoDup_cons in Hnd as [Ha Hnd].
  destruct (p a); cbn; [|auto]. constructor; [|auto].
  intros Hin. apply Ha. apply list_elem_of_In, in_map_iff in Hin as (b & Hb & Hbin).
  apply filter_In in Hbin as [Hbin _]. rewrite <- Hb. apply list_elem_of_In, in_map. exact Hbin.
Qed.

Lemma NoDup_map_inv' {A B} (f : A -> B) (l : list A) : NoDup (map f l) -> NoDup l.
Proof.
  induction l as [|a l IH]; intros Hnd; cbn in Hnd; [constructor|].
  apply NoDup_cons in Hnd as [Ha Hnd]. constructor; [|auto].
  intros Hin. apply Ha. apply list_elem_of_In, in_map, list_elem_of_In. exact Hin.
Qed.

Lemma group_min_ids_spec rows r :
  NoDup (map m_id rows) -> r ∈ rows ->
  (m_id r ∈ group_min_ids rows <-> min_id_of_name rows (m_name r) = Some (m_id r)).
Proof.
  intros Hnd Hr. unfold group_min_ids. rewrite list_elem_of_omap. split.
  - intros (n & Hn & Hm).
    destruct (min_id_of_name_Some rows n _ Hm) as (r0 & Hr0 & Hn0 & Hk0 & _).
    assert (r0 = r) as -> by (apply (NoDup_map_eq m_id rows); assumption).
    subst n. exact Hm.
  - intros Hm. exists (m_name r). split; [|exact Hm].
    apply elem_of_remove_dups. apply list_elem_of_In, in_map, list_elem_of_In. exact Hr.
Qed.

Lemma length_remove_dups_NoDup {A} `{EqDecision A} (l k : list A) :
  NoDup l -> (forall x, x ∈ l <-> x ∈ k) -> length l = length (remove_dups k).
Proof.
  intros Hnd Hiff. apply Permutation_length. apply NoDup_Permutation;
    [exact Hnd | apply NoDup_remove_dups |].
  intros x. rewrite elem_of_remove_dups. apply Hiff.
Qed.

(** ** The music table *)

(** [remove_duplicates] on a table with distinct ids keeps, of each name,
    the row with the smallest id; it reports as deleted exactly the count
    [get_duplicate_count] gives beforehand, leaves no duplicate, keeps
    every name and leaves the id counter alone. *)
Theorem remove_duplicates_spec (mdb : MusicDb) (Hid : NoDup (map m_id (music_rows mdb))) :
  let '(deleted, mdb') := remove_duplicates mdb in
  deleted = get_duplicate_count mdb /\
  get_duplicate_count mdb' = 0 /\
  (forall r, r ∈ music_rows mdb' <->
     r ∈ music_rows mdb /\
     forall r', r' ∈ music_rows mdb -> m_name r' = m_name r -> m_id r <= m_id r') /\
  (forall n, n ∈ map m_name (music_rows mdb') <-> n ∈ map m_name (music_rows mdb)) /\
  music_seq mdb' = music_seq mdb.
Proof.
  destruct mdb as [rows seq]. cbn [music_rows music_seq] in *.
  unfold remove_duplicates, get_duplicate_count. cbn [music_rows music_seq].
  set (keep := List.filter _ rows).
  assert (Hkeep : forall r, r ∈ keep <-> r ∈ rows /\ min_id_of_name rows (m_name r) = Some (m_id r)).
  { intros r. unfold keep. rewrite list_elem_of_In, filter_In, <- list_elem_of_In.
    rewrite bool_decide_eq_true. split; intros [Hr H]; split; try exact Hr;
      apply (group_min_ids_spec rows r Hid Hr); exact H. }
  assert (Hmin : forall r, r ∈ rows ->
            (min_id_of_name rows (m_name r) = Some (m_id r) <->
             forall r', r' ∈ rows -> m_name r' = m_name r -> m_id r <= m_id r')).
  { intros r Hr. split.
    - intros Hm. destruct (min_id_of_name_Some _ _ _ Hm) as (_ & _ & _ & _ & H). exact H.
    - intros H. destruct (min_id_of_name_is_Some rows r Hr) as [k Hk]. rewrite Hk.
      destruct (min_id_of_name_Some _ _ _ Hk) as (r0 & Hr0 & Hn0 & <- & H0).
      f_equal. specialize (H r0 Hr0 Hn0). specialize (H0 r Hr eq_refl). lia. }
  assert (Hnames : forall n, n ∈ map m_name keep <-> n ∈ map m_name rows).
  { intros n. rewrite !list_elem_of_In, !in_map_iff. split.
    - intros (r & Hn & Hr). exists r. split; [exact Hn|].
      apply list_elem_of_In in Hr. apply Hkeep in Hr as [Hr _]. apply list_elem_of_In. exact Hr.
    - intros (r & <- & Hr). apply list_elem_of_In in Hr.
      destruct (min_id_of_name_is_Some rows r Hr) as [k Hk].
      destruct (min_id_of_name_Some _ _ _ Hk) as (r0 & Hr0 & Hn0 & Hk0 & _).
      exists r0. split; [exact Hn0|]. apply list_elem_of_In, Hkeep. split; [exact Hr0|].
      rewrite Hn0, Hk0. exact Hk. }
  assert (Hnd_keep : NoDup (map m_name keep)).
  { apply NoDup_map_inj_on.
    - apply (NoDup_map_inv' m_id). apply NoDup_map_filter. exact Hid.
    - intros x y Hx Hy Hxy. apply Hkeep in Hx as [Hx Hmx]. apply Hkeep in Hy as [Hy Hmy].
      apply (NoDup_map_eq m_id rows); [exact Hid | exact Hx | exact Hy |]. congruence. }
  assert (Hlen : length keep = length (remove_dups (map m_name rows))).
  { rewrite <- (length_map m_name keep). apply length_remove_dups_NoDup; assumption. }
  split; [rewrite Hlen; reflexivity|].
  split.
  - cbn [music_rows]. rewrite <- (length_remove_dups_NoDup (map m_name keep) (map m_name keep));
      [rewrite length_map; lia | exact Hnd_keep | reflexivity].
  - split; [|split; [exact Hnames | reflexivity]].
    intros r. cbn [music_rows]. rewrite Hkeep. split; intros [Hr H]; split; try exact Hr;
      apply (Hmin r Hr); exact H.
Qed.

Lemma select_music_id_elem rows loc id :
  select_music_id rows loc = Some id -> id ∈ map m_id rows.
Proof.
  induction rows as [|r rows IH]; cbn; [discriminate|].
  destruct (String.eqb (m_file_location r) loc).
  - intros [= <-]. apply elem_of_cons. left. reflexivity.
  - intros H. apply elem_of_cons. right. auto.
Qed.

(** Distinct ids bounded by the AUTOINCREMENT counter stay so through
    [add_music_entry] (whose returned id is then in the table) and
    through [remove_duplicates]. *)
Theorem music_ids_invariant (env : Env) (mdb : MusicDb) (p : string) (nm : option string)
    (H : music_ids_ok mdb) :
  let '(id, mdb') := add_music_entry env mdb p nm in
  music_ids_ok mdb' /\ id ∈ map m_id (music_rows mdb') /\
  music_ids_ok (snd (remove_duplicates mdb)).
Proof.
  unfold music_ids_ok in *. destruct H as [Hnd Hle].
  rewrite Forall_forall in Hle.
  assert (Hrd : NoDup (map m_id (music_rows (snd (remove_duplicates mdb)))) /\
                Forall (fun r => m_id r <= music_seq (snd (remove_duplicates mdb)))
                  (music_rows (snd (remove_duplicates mdb)))).
  { unfold remove_duplicates. cbn [snd music_rows music_seq]. split.
    - apply NoDup_map_filter. exact Hnd.
    - apply Forall_forall. intros r Hr. apply list_elem_of_In, filter_In in Hr as [Hr _].
      apply Hle, list_elem_of_In. exact Hr. }
  unfold add_music_entry.
  destruct (select_music_id (music_rows mdb) (abspath env p)) as [id|] eqn:Hs.
  - split; [split; [exact Hnd | apply Forall_forall; exact Hle]|]. split; [|exact Hrd].
    apply (select_music_id_elem _ _ _ Hs).
  - cbn [music_rows music_seq]. split; [split|split; [|exact Hrd]].
    + rewrite map_app. cbn. apply NoDup_app. split; [exact Hnd|]. split; [|apply NoDup_singleton].
      intros x Hx Hx'. apply list_elem_of_singleton in Hx' as ->.
      apply list_elem_of_In, in_map_iff in Hx as (r & Hr & Hrin).
      apply list_elem_of_In, Hle in Hrin. lia.
    + apply Forall_forall. intros r Hr. apply elem_of_app in Hr as [Hr|Hr].
      * apply Hle in Hr. lia.
      * apply list_elem_of_singleton in Hr as ->. cbn. lia.
    + rewrite map_app. apply elem_of_app. right. apply list_elem_of_singleton. reflexivity.
Qed.

(** Deleting the playlist that is playing clears the bound copy, its name
    and its index; with an empty queue, [next()] then answers "No next
    song" and changes nothing. *)
Theorem delete_bound_playlist_ends_playlist (env : Env) (db : Db) (st : Engine) (nm : string)
    (Hb : current_playlist_name st = Some nm) (Hq : queue st = []) :
  let '(r, db', st') := delete_playlist true db st nm in
  r = RPlaylistDeleted ->
  current_playlist st' = [] /\ current_playlist_name st' = None /\
  playlist_index st' = 0 /\ next env st' = (RNoNextSong, st').
Proof.
  unfold delete_playlist.
  destruct (String.eqb nm LIBRARY); [discriminate|].
  destruct (playlists st !! nm); [|discriminate]. cbn [negb]. intros _.
  rewrite bool_decide_true by exact Hb.
  repeat split. unfold next. cbn. rewrite Hq. reflexivity.
Qed.

(** ** Instances of the properties above *)

Definition st_abc : Engine := playing_playlist "P" [song_a; song_b; song_c].

Lemma pause_resume_restores_witness :
  is_playing st_abc = true /\ is_Some (current_song st_abc) /\
  let '(r1, st1) := pause st_abc in
  let '(r2, st2) := resume st1 in
  r1 = CPaused /\ is_playing st1 = false /\ running (player st1) = false /\
  r2 = CResumed /\
  st2 = set_player st_abc (mkPlayer (media (player st_abc)) true (audio_volume (player st_abc))).
Proof.
  assert (Hp : is_playing st_abc = true) by (vm_compute; reflexivity).
  assert (Hs : is_Some (current_song st_abc)) by (vm_compute; eexists; reflexivity).
  split; [exact Hp|]. split; [exact Hs|].
  exact (pause_resume_restores st_abc Hp Hs).
Defined.

Lemma volume_routes_witness :
  0 <= volume (engine0 ∅) <= 100 /\
  volume (snd (volume_up (engine0 ∅))) = Z.min 100 (volume (engine0 ∅) + 10) /\
  volume (snd (volume_down (engine0 ∅))) = Z.max 0 (volume (engine0 ∅) - 10) /\
  (volume (engine0 ∅) <= 90 ->
     volume (snd (volume_down (snd (volume_up (engine0 ∅))))) = volume (engine0 ∅)) /\
  (10 <= volume (engine0 ∅) ->
     volume (snd (volume_up (snd (volume_down (engine0 ∅))))) = volume (engine0 ∅)).
Proof.
  assert (Hv : 0 <= volume (engine0 ∅) <= 100) by (cbn; lia).
  split; [exact Hv|]. exact (volume_routes (engine0 ∅) Hv).
Defined.

Lemma set_shuffle_keeps_played_witness :
  0 <= playlist_index st_abc /\
  let '(r, st') := set_shuffle reverse st_abc true in
  r = CShuffle true /\ shuffle st' = true /\
  current_playlist st' ≡ₚ current_playlist st_abc /\
  take (S (Z.to_nat (playlist_index st_abc))) (current_playlist st') =
    take (S (Z.to_nat (playlist_index st_abc))) (current_playlist st_abc) /\
  playlist_index st' = playlist_index st_abc /\
  current_playlist_name st' = current_playlist_name st_abc /\
  playlists st' = playlists st_abc.
Proof.
  assert (Hi : 0 <= playlist_index st_abc) by (apply Z.leb_le; vm_compute; reflexivity).
  split; [exact Hi|].
  exact (set_shuffle_keeps_played reverse st_abc (fun l => reverse_Permutation l) Hi).
Defined.

Definition st_abc_1 : Engine := snd (next env0 st_abc).

Lemma previous_steps_back_in_playlist_witness :
  0 < playlist_index st_abc_1 /\
  current_playlist st_abc_1 !! Z.to_nat (playlist_index st_abc_1 - 1) = Some song_a /\
  let '(r, st', t) := previous env0 st_abc_1 in
  r = CPlayed (fst (play_file env0 st_abc_1 (file_location song_a))) /\
  playlist_index st' = playlist_index st_abc_1 - 1 /\ t = None.
Proof.
  assert (Hi : 0 < playlist_index st_abc_1) by (apply Z.ltb_lt; vm_compute; reflexivity).
  assert (Hs : current_playlist st_abc_1 !! Z.to_nat (playlist_index st_abc_1 - 1) = Some song_a)
    by (vm_compute; reflexivity).
  split; [exact Hi|]. split; [exact Hs|].
  exact (previous_steps_back_in_playlist env0 st_abc_1 song_a Hi Hs).
Defined.

Lemma previous_steps_back_in_history_witness :
  (current_playlist engine_two_played = [] \/ playlist_index engine_two_played <= 0) /\
  history engine_two_played = [] ++ [song_a; song_b] /\
  let '(r, st', t) := previous env0 engine_two_played in
  r = CPlayed (fst (play_file env0 engine_two_played (file_location song_a))) /\
  (length (history st') <= length (history engine_two_played))%nat /\
  playlist_index st' = playlist_index engine_two_played /\ t = None.
Proof.
  assert (Hnb : current_playlist engine_two_played = [] \/ playlist_index engine_two_played <= 0)
    by (left; vm_compute; reflexivity).
  assert (Hh : history engine_two_played = [] ++ [song_a; song_b]) by (vm_compute; reflexivity).
  split; [exact Hnb|]. split; [exact Hh|].
  exact (previous_steps_back_in_history env0 engine_two_played [] song_a song_b Hnb Hh).
Defined.

Lemma add_to_queue_fifo_witness :
  search_song env_lib "a.mp3" = Some song_a /\
  let '(r, st1) := add_to_queue env_lib st_abc "a.mp3" in
  r = CAddedToQueue song_a /\
  match queue st_abc with
  | [] => fst (next env_lib st1) = fst (play_file env_lib st_abc (file_location song_a)) /\
          queue (snd (next env_lib st1)) = []
  | h :: t => fst (next env_lib st1) = fst (play_file env_lib st_abc (file_location h)) /\
              queue (snd (next env_lib st1)) = t ++ [song_a]
  end.
Proof.
  assert (Hs : search_song env_lib "a.mp3" = Some song_a) by reflexivity.
  split; [exact Hs|]. exact (add_to_queue_fifo env_lib st_abc "a.mp3" song_a Hs).
Defined.

Definition st_abc_2 : Engine := snd (next env0 st_abc_1).

Lemma set_repeat_all_wraps_witness :
  queue st_abc_2 = [] /\
  Z.of_nat (length (current_playlist st_abc_2)) <= playlist_index st_abc_2 + 1 /\
  current_playlist st_abc_2 !! 0%nat = Some song_a /\
  let '(r, st1) := set_repeat st_abc_2 "all" in
  r = CRepeat All /\
  fst (next env0 st1) = fst (play_file env0 st_abc_2 (file_location song_a)) /\
  playlist_index (snd (next env0 st1)) = 0.
Proof.
  assert (Hq : queue st_abc_2 = []) by (vm_compute; reflexivity).
  assert (Hend : Z.of_nat (length (current_playlist st_abc_2)) <= playlist_index st_abc_2 + 1)
    by (apply Z.leb_le; vm_compute; reflexivity).
  assert (H0 : current_playlist st_abc_2 !! 0%nat = Some song_a) by (vm_compute; reflexivity).
  split; [exact Hq|]. split; [exact Hend|]. split; [exact H0|].
  exact (set_repeat_all_wraps env0 st_abc_2 song_a Hq Hend H0).
Defined.

Lemma bound_consistent_st_abc : bound_consistent st_abc.
Proof. vm_compute. reflexivity. Qed.

Lemma playlist_edits_keep_bound_witness :
  bound_consistent st_abc /\
  (forall nm songs, bound_consistent (create_playlist false db_playlist_P st_abc nm songs).2) /\
  (forall nm, bound_consistent (delete_playlist false db_playlist_P st_abc nm).2) /\
  (forall pname sn, bound_consistent (add_to_playlist env_lib false db_playlist_P st_abc pname sn).2) /\
  (forall pname i, bound_consistent (remove_from_playlist false db_playlist_P st_abc pname i).2) /\
  (forall pname f t, bound_consistent (reorder_playlist false db_playlist_P st_abc pname f t).2) /\
  (forall o nn, bound_consistent (rename_playlist false db_playlist_P st_abc o nn).2).
Proof.
  assert (H : bound_consistent st_abc) by (vm_compute; reflexivity).
  split; [exact H|]. exact (playlist_edits_keep_bound env_lib false db_playlist_P st_abc H).
Defined.

Lemma playback_keeps_bound_witness :
  bound_consistent st_abc /\
  (forall nm, bound_consistent (snd (play_playlist env0 reverse st_abc nm))) /\
  (forall b, bound_consistent (snd (set_shuffle reverse st_abc b))) /\
  bound_consistent (snd (stop st_abc)) /\
  bound_consistent (snd (next env0 st_abc)) /\
  bound_consistent (previous env0 st_abc).1.2 /\
  bound_consistent (handle_song_end env0 st_abc).
Proof.
  assert (H : bound_consistent st_abc) by (vm_compute; reflexivity).
  split; [exact H|].
  exact (playback_keeps_bound env0 reverse st_abc (fun l => length_reverse l) H).
Defined.

Lemma bound_copy_edits_succeed_witness :
  bound_consistent st_abc /\ playlists st_abc !! "P" = Some [song_a; song_b; song_c] /\
  "P" <> LIBRARY /\
  (forall i, 0 <= i < Z.of_nat (length [song_a; song_b; song_c]) ->
     exists s, [song_a; song_b; song_c] !! Z.to_nat i = Some s /\
       (remove_from_playlist true db_playlist_P st_abc "P" i).1.1 = RSongRemoved s) /\
  (forall f t, 0 <= f < Z.of_nat (length [song_a; song_b; song_c]) ->
     0 <= t < Z.of_nat (length [song_a; song_b; song_c]) ->
     (reorder_playlist true db_playlist_P st_abc "P" f t).1.1 = RPlaylistReordered).
Proof.
  assert (H : bound_consistent st_abc) by (vm_compute; reflexivity).
  assert (Hl : playlists st_abc !! "P" = Some [song_a; song_b; song_c])
    by (vm_compute; reflexivity).
  assert (Hlib : "P" <> LIBRARY) by (unfold LIBRARY; discriminate).
  split; [exact H|]. split; [exact Hl|]. split; [exact Hlib|].
  exact (bound_copy_edits_succeed db_playlist_P st_abc "P" _ H Hl Hlib).
Defined.

Lemma add_to_playlist_store_sync_witness :
  playlists st_abc !! "P" = Some [song_a; song_b; song_c] /\
  select_playlist_id db_playlist_P "P" = Some 1 /\
  rows_of 1 (tbl_playlist_songs db_playlist_P) = enum_rows 1 0 [song_a; song_b; song_c] /\
  let '(r, db', st') := add_to_playlist env_lib true db_playlist_P st_abc "P" "d.mp3" in
  (r = RError SongNotFound /\ db' = db_playlist_P /\ st' = st_abc) \/
  (exists s, r = RSongAdded s /\
     playlists st' !! "P" = Some ([song_a; song_b; song_c] ++ [s]) /\
     rows_of 1 (tbl_playlist_songs db') = enum_rows 1 0 ([song_a; song_b; song_c] ++ [s]) /\
     select_songs db' 1 = [song_a; song_b; song_c] ++ [s] /\
     (forall q, q <> 1 -> rows_of q (tbl_playlist_songs db') =
                          rows_of q (tbl_playlist_songs db_playlist_P))).
Proof.
  assert (Hl : playlists st_abc !! "P" = Some [song_a; song_b; song_c])
    by (vm_compute; reflexivity).
  assert (Hpid : select_playlist_id db_playlist_P "P" = Some 1) by (vm_compute; reflexivity).
  assert (Hsync : rows_of 1 (tbl_playlist_songs db_playlist_P)
                  = enum_rows 1 0 [song_a; song_b; song_c]) by (vm_compute; reflexivity).
  split; [exact Hl|]. split; [exact Hpid|]. split; [exact Hsync|].
  exact (add_to_playlist_store_sync env_lib db_playlist_P st_abc "P" "d.mp3" _ 1 Hl Hpid Hsync).
Defined.

Lemma reorder_playlist_store_sync_witness :
  playlists st_abc !! "P" = Some [song_a; song_b; song_c] /\ "P" <> LIBRARY /\
  0 <= 0 < Z.of_nat (length [song_a; song_b; song_c]) /\
  0 <= 2 < Z.of_nat (length [song_a; song_b; song_c]) /\
  select_playlist_id db_playlist_P "P" = Some 1 /\
  let '(r, db', st') := reorder_playlist true db_playlist_P st_abc "P" 0 2 in
  exists l2, py_move [song_a; song_b; song_c] 0 2 = Some l2 /\
    playlists st' !! "P" = Some l2 /\
    rows_of 1 (tbl_playlist_songs db') = enum_rows 1 0 l2 /\
    select_songs db' 1 = l2 /\
    (forall q, q <> 1 -> rows_of q (tbl_playlist_songs db') =
                         rows_of q (tbl_playlist_songs db_playlist_P)).
Proof.
  assert (Hl : playlists st_abc !! "P" = Some [song_a; song_b; song_c])
    by (vm_compute; reflexivity).
  assert (Hlib : "P" <> LIBRARY) by (unfold LIBRARY; discriminate).
  assert (Hf : 0 <= 0 < Z.of_nat (length [song_a; song_b; song_c])) by (cbn; lia).
  assert (Ht : 0 <= 2 < Z.of_nat (length [song_a; song_b; song_c])) by (cbn; lia).
  assert (Hpid : select_playlist_id db_playlist_P "P" = Some 1) by (vm_compute; reflexivity).
  split; [exact Hl|]. split; [exact Hlib|]. split; [exact Hf|]. split; [exact Ht|].
  split; [exact Hpid|].
  exact (reorder_playlist_store_sync db_playlist_P st_abc "P" _ 0 2 1 Hl Hlib Hf Ht Hpid).
Defined.

Lemma create_playlist_reload_witness :
  playlists st_abc !! "Q" = None /\ name_in_table db_playlist_P "Q" = false /\
  Forall (fun r => pl_id r <= pl_seq db_playlist_P) (tbl_playlists db_playlist_P) /\
  Forall (fun r => ps_playlist r <= pl_seq db_playlist_P) (tbl_playlist_songs db_playlist_P) /\
  let '(r, db', st') := create_playlist true db_playlist_P st_abc "Q" [song_c; song_a] in
  r = RPlaylistCreated /\ playlists st' !! "Q" = Some [song_c; song_a] /\
  load_saved_playlists db' ∅ !! "Q" = Some [song_c; song_a] /\
  (forall k, k <> "Q" -> load_saved_playlists db' ∅ !! k = load_saved_playlists db_playlist_P ∅ !! k).
Proof.
  assert (Hnew : playlists st_abc !! "Q" = None) by (vm_compute; reflexivity).
  assert (Hfree : name_in_table db_playlist_P "Q" = false) by (vm_compute; reflexivity).
  assert (Hids : Forall (fun r => pl_id r <= pl_seq db_playlist_P) (tbl_playlists db_playlist_P))
    by (apply (bool_decide_unpack _); vm_compute; exact I).
  assert (Hrows : Forall (fun r => ps_playlist r <= pl_seq db_playlist_P)
                    (tbl_playlist_songs db_playlist_P))
    by (apply (bool_decide_unpack _); vm_compute; exact I).
  split; [exact Hnew|]. split; [exact Hfree|]. split; [exact Hids|]. split; [exact Hrows|].
  exact (create_playlist_reload db_playlist_P st_abc "Q" [song_c; song_a] ∅ Hnew Hfree Hids Hrows).
Defined.

Lemma rename_playlist_reload_witness :
  name_in_table db_playlist_P "P" = true /\
  let '(r, db', st') := rename_playlist true db_playlist_P st_abc "P" "R" in
  r = RPlaylistRenamed ->
  playlists st' !! "R" = playlists st_abc !! "P" /\ playlists st' !! "P" = None /\
  load_saved_playlists db' ∅ !! "R" = load_saved_playlists db_playlist_P ∅ !! "P" /\
  load_saved_playlists db' ∅ !! "P" = (∅ : gmap string (list Song)) !! "P" /\
  (forall k, k <> "P" -> k <> "R" ->
     load_saved_playlists db' ∅ !! k = load_saved_playlists db_playlist_P ∅ !! k).
Proof.
  assert (Hin : name_in_table db_playlist_P "P" = true) by (vm_compute; reflexivity).
  split; [exact Hin|].
  exact (rename_playlist_reload db_playlist_P st_abc "P" "R" ∅ Hin).
Defined.

Lemma remove_duplicates_spec_witness :
  NoDup (map m_id (music_rows mdb_dups)) /\
  let '(deleted, mdb') := remove_duplicates mdb_dups in
  deleted = get_duplicate_count mdb_dups /\
  get_duplicate_count mdb' = 0 /\
  (forall r, r ∈ music_rows mdb' <->
     r ∈ music_rows mdb_dups /\
     forall r', r' ∈ music_rows mdb_dups -> m_name r' = m_name r -> m_id r <= m_id r') /\
  (forall n, n ∈ map m_name (music_rows mdb') <-> n ∈ map m_name (music_rows mdb_dups)) /\
  music_seq mdb' = music_seq mdb_dups.
Proof.
  assert (Hid : NoDup (map m_id (music_rows mdb_dups)))
    by (apply (bool_decide_unpack _); vm_compute; exact I).
  split; [exact Hid|]. exact (remove_duplicates_spec mdb_dups Hid).
Defined.

Lemma music_ids_invariant_witness :
  music_ids_ok mdb_dups /\
  let '(id, mdb') := add_music_entry env0 mdb_dups "/m/z.mp3" None in
  music_ids_ok mdb' /\ id ∈ map m_id (music_rows mdb') /\
  music_ids_ok (snd (remove_duplicates mdb_dups)).
Proof.
  assert (H : music_ids_ok mdb_dups)
    by (split; apply (bool_decide_unpack _); vm_compute; exact I).
  split; [exact H|]. exact (music_ids_invariant env0 mdb_dups "/m/z.mp3" None H).
Defined.

Lemma delete_bound_playlist_ends_playlist_witness :
  current_playlist_name st_abc = Some "P" /\ queue st_abc = [] /\
  let '(r, db', st') := delete_playlist true db_playlist_P st_abc "P" in
  r = RPlaylistDeleted ->
  current_playlist st' = [] /\ current_playlist_name st' = None /\
  playlist_index st' = 0 /\ next env0 st' = (RNoNextSong, st').
Proof.
  assert (Hb : current_playlist_name st_abc = Some "P") by (vm_compute; reflexivity).
  assert (Hq : queue st_abc = []) by (vm_compute; reflexivity).
  split; [exact Hb|]. split; [exact Hq|].
  exact (delete_bound_playlist_ends_playlist env0 db_playlist_P st_abc "P" Hb Hq).
Defined.
